(** * Identity reconciliation: the contact store, the identify service and
      their properties.

    The development follows the TypeScript sources:
    - [types/index.ts]: [ContactRecord], [IdentifyRequest],
      [ConsolidatedContact], [IdentifyResponse];
    - [repositories/contact.repository.ts]: the five Prisma statements
      ([findContactsByEmailOrPhone], [findContactCluster],
      [createPrimaryContact], [createSecondaryContact],
      [demotePrimaryToSecondary], [relinkSecondaries]);
    - [services/identify.service.ts]: [identifyContact], [mergeAndRespond],
      [getRootPrimaryIds], [buildResponse].

    Numbers ([id], [linkedId]) are integers, a [Date] is its millisecond
    timestamp, [string | null] and [string | undefined] are [option string].
    The database is a list of rows in table order together with the
    autoincrement sequence and the clock behind [now()]. *)

From Stdlib Require Import ZArith List String Bool Lia Permutation Sorted.
Import ListNotations.
Local Open Scope Z_scope.
Local Open Scope list_scope.

Set Implicit Arguments.

(** ** Data model ([types/index.ts] and the Prisma schema) *)

Inductive LinkPrecedence : Type := primary | secondary.

Definition LinkPrecedence_eqb (a b : LinkPrecedence) : bool :=
  match a, b with
  | primary, primary | secondary, secondary => true
  | _, _ => false
  end.

Record ContactRecord : Type := mkContact {
  id : Z;
  phoneNumber : option string;
  email : option string;
  linkedId : option Z;
  linkPrecedence : LinkPrecedence;
  createdAt : Z;
  updatedAt : Z;
  deletedAt : option Z
}.

Record IdentifyRequest : Type := mkRequest {
  reqEmail : option string;
  reqPhoneNumber : option string
}.

Record ConsolidatedContact : Type := mkConsolidated {
  primaryContactId : Z;
  emails : list string;
  phoneNumbers : list string;
  secondaryContactIds : list Z
}.

Record IdentifyResponse : Type := mkResponse {
  contact : ConsolidatedContact
}.

(** The table [Contact]: rows in table order, the sequence behind
    [@default(autoincrement())] and the clock behind [@default(now())] and
    [@updatedAt].  Table order is the order in which the database returns
    rows whose sort keys are equal; PostgreSQL does not fix it, so any list
    of rows is a table. *)
Record Store : Type := mkStore {
  contacts : list ContactRecord;
  nextId : Z;
  clock : Z
}.

(** ** JavaScript values *)

(** Truthiness of a [string | undefined | null]: [if (email)] holds for a
    string that is not empty. *)
Definition truthy (s : option string) : bool :=
  match s with
  | Some v => negb (v =? EmptyString)%string
  | None => false
  end.

Definition isNull {A} (o : option A) : bool :=
  match o with None => true | Some _ => false end.

(** [x ?? null] on a [string | undefined]. *)
Definition orNull (s : option string) : option string := s.

Definition inZ (x : Z) (l : list Z) : bool := existsb (Z.eqb x) l.
Definition inStr (x : string) (l : list string) : bool := existsb (String.eqb x) l.

(** A JavaScript [Set] keeps insertion order; [add] of a member changes
    nothing. [Array.from] of the set is the list itself. *)
Definition setAddZ (s : list Z) (x : Z) : list Z :=
  if inZ x s then s else s ++ [x].
Definition setAddStr (s : list string) (x : string) : list string :=
  if inStr x s then s else s ++ [x].
(** [new Set(array)] *)
Definition newSetStr (l : list string) : list string := fold_left setAddStr l [].

(** [array.filter(x => x !== null)] on a list of nullable strings. *)
Fixpoint nonNull (l : list (option string)) : list string :=
  match l with
  | [] => []
  | Some v :: l' => v :: nonNull l'
  | None :: l' => nonNull l'
  end.

(** [Array.prototype.sort] with the comparator [(a, b) => key(a) - key(b)]
    is a stable sort by [key]; [ORDER BY key ASC] is modelled by the same
    function over the rows in table order. *)
Section Sorting.
Variable A : Type.
Variable key : A -> Z.

Fixpoint insertBy (x : A) (l : list A) : list A :=
  match l with
  | [] => [x]
  | y :: l' => if key x <=? key y then x :: y :: l' else y :: insertBy x l'
  end.

Definition sortBy (l : list A) : list A := fold_right insertBy [] l.

Definition keyLe (a b : A) : Prop := key a <= key b.
End Sorting.

(** ** The repository ([contact.repository.ts]) as functions on the table *)

(** [findMany({ where, orderBy: { createdAt: "asc" } })] *)
Definition findMany (where_ : ContactRecord -> bool) (s : Store) : list ContactRecord :=
  sortBy createdAt (filter where_ (contacts s)).

(** [updateMany({ where, data })]; [@updatedAt] stamps the rows it changes. *)
Definition updateMany (where_ : ContactRecord -> bool)
    (data : ContactRecord -> ContactRecord) (s : Store) : Store :=
  {| contacts := map (fun c => if where_ c then data c else c) (contacts s);
     nextId := nextId s;
     clock := clock s |}.

Definition countWhere (where_ : ContactRecord -> bool) (s : Store) : nat :=
  List.length (filter where_ (contacts s)).

(** [create({ data })]: the new row takes the next identifier and the
    current time; it goes to the end of the table. *)
Definition newRow (s : Store) (em ph : option string) (l : option Z)
    (lp : LinkPrecedence) : ContactRecord :=
  {| id := nextId s; phoneNumber := ph; email := em; linkedId := l;
     linkPrecedence := lp; createdAt := clock s; updatedAt := clock s;
     deletedAt := None |}.

Definition create (em ph : option string) (l : option Z) (lp : LinkPrecedence)
    (s : Store) : ContactRecord * Store :=
  let c := newRow s em ph l lp in
  (c, {| contacts := contacts s ++ [c]; nextId := nextId s + 1; clock := clock s |}).

Definition optStrEqb (a : option string) (b : string) : bool :=
  match a with Some v => (v =? b)%string | None => false end.
Definition optZIn (a : option Z) (l : list Z) : bool :=
  match a with Some v => inZ v l | None => false end.
Definition optZEqb (a : option Z) (b : Z) : bool :=
  match a with Some v => v =? b | None => false end.

(** The [orConditions] of [findContactsByEmailOrPhone]: one condition per
    field that is set, each with [deletedAt: null]. *)
Definition orConditions (em ph : option string) : list (ContactRecord -> bool) :=
  match em with
  | Some e =>
      if truthy em
      then [fun c => optStrEqb (email c) e && isNull (deletedAt c)]
      else []
  | None => []
  end
  ++
  match ph with
  | Some p =>
      if truthy ph
      then [fun c => optStrEqb (phoneNumber c) p && isNull (deletedAt c)]
      else []
  | None => []
  end.

Definition whereOr (conds : list (ContactRecord -> bool)) (c : ContactRecord) : bool :=
  existsb (fun cond => cond c) conds.

(** The [where] clause of [findContactCluster]. *)
Definition whereCluster (primaryIds : list Z) (c : ContactRecord) : bool :=
  isNull (deletedAt c)
  && (inZ (id c) primaryIds || optZIn (linkedId c) primaryIds).

(** The [where] and [data] of [demotePrimaryToSecondary]. *)
Definition whereIdIn (contactIds : list Z) (c : ContactRecord) : bool :=
  inZ (id c) contactIds.

Definition dataDemote (now newLinkedId : Z) (c : ContactRecord) : ContactRecord :=
  {| id := id c; phoneNumber := phoneNumber c; email := email c;
     linkedId := Some newLinkedId; linkPrecedence := secondary;
     createdAt := createdAt c; updatedAt := now; deletedAt := deletedAt c |}.

(** The [where] and [data] of [relinkSecondaries]. *)
Definition whereLinkedTo (oldPrimaryId : Z) (c : ContactRecord) : bool :=
  optZEqb (linkedId c) oldPrimaryId && isNull (deletedAt c).

Definition dataRelink (now newPrimaryId : Z) (c : ContactRecord) : ContactRecord :=
  {| id := id c; phoneNumber := phoneNumber c; email := email c;
     linkedId := Some newPrimaryId; linkPrecedence := linkPrecedence c;
     createdAt := createdAt c; updatedAt := now; deletedAt := deletedAt c |}.

(** ** Effects: statements, transactions and other requests

    Every [await] on the store is a point where other requests may run.  A
    [World] holds the database, the moves other requests will make at the
    coming suspension points ([pending]; none in a run on its own), and the
    statements this request has sent so far.  A statement sent on the
    transaction client runs without a suspension point before it; a
    callback given to [$transaction] that throws leaves the database as it
    was when the transaction began. *)

Inductive Exception : Type := TypeError.

Inductive Stmt : Type :=
| SFindMany (hits : nat)
| SCreate (lp : LinkPrecedence)
| SUpdateMany (count : nat).

Record Event : Type := mkEvent { inTransaction : bool; stmt : Stmt }.

Record World : Type := mkWorld {
  db : Store;
  pending : list (Store -> Store);
  trace : list Event
}.

Inductive Outcome (A : Type) : Type :=
| Return (a : A)
| Throw (e : Exception).
Arguments Throw {A} e.

Definition M (A : Type) : Type := World -> Outcome A * World.

Definition ret {A} (a : A) : M A := fun w => (Return a, w).

Definition bind {A B} (m : M A) (k : A -> M B) : M B :=
  fun w =>
    match m w with
    | (Return a, w') => k a w'
    | (Throw e, w') => (Throw e, w')
    end.

Definition throw {A} (e : Exception) : M A := fun w => (Throw e, w).

Notation "x <- m ;; k" := (bind m (fun x => k))
  (at level 61, m at next level, right associativity).
Notation "m ;;; k" := (bind m (fun _ => k))
  (at level 61, right associativity).

(** Reading a property of a value that may be [undefined]. *)
Definition deref {A} (o : option A) : M A :=
  match o with Some a => ret a | None => throw TypeError end.

(** [for (const x of xs) await body(x)] *)
Fixpoint forEach {A} (xs : list A) (body : A -> M unit) : M unit :=
  match xs with
  | [] => ret tt
  | x :: xs' => body x ;;; forEach xs' body
  end.

Definition interfere (w : World) : World :=
  match pending w with
  | [] => w
  | f :: fs => {| db := f (db w); pending := fs; trace := trace w |}
  end.

Inductive TransactionClient : Type := txClient.

Definition isSome {A} (o : option A) : bool :=
  match o with Some _ => true | None => false end.

(** One statement sent to [tx ?? prisma].  The store is taken to answer
    every statement: a failure of the database itself is not represented,
    so the only exception of a run is the [TypeError] of the service's own
    code. *)
Definition statement {A} (tx : option TransactionClient)
    (q : Store -> A * Store) (ev : A -> Stmt) : M A :=
  fun w =>
    let w1 := if isSome tx then w else interfere w in
    let (a, s') := q (db w1) in
    (Return a,
     {| db := s'; pending := pending w1;
        trace := trace w1 ++ [mkEvent (isSome tx) (ev a)] |}).

(** [prisma.$transaction(async (tx) => body, TX_OPTIONS)].  The body runs
    with no move of another request between its statements, the strongest
    isolation a database can give; the [maxWait] and [timeout] of
    [TX_OPTIONS] are not represented. *)
Definition transaction {A} (body : TransactionClient -> M A) : M A :=
  fun w =>
    let w1 := interfere w in
    match body txClient w1 with
    | (Return a, w2) => (Return a, w2)
    | (Throw e, w2) =>
        (Throw e, {| db := db w1; pending := pending w2; trace := trace w2 |})
    end.

(** ** The repository functions *)

Definition findContactsByEmailOrPhone (em ph : option string)
    (tx : option TransactionClient) : M (list ContactRecord) :=
  let orConditions := orConditions em ph in
  if (List.length orConditions =? 0)%nat then ret []
  else statement tx (fun s => (findMany (whereOr orConditions) s, s))
         (fun r => SFindMany (List.length r)).

Definition findContactCluster (primaryIds : list Z)
    (tx : option TransactionClient) : M (list ContactRecord) :=
  statement tx (fun s => (findMany (whereCluster primaryIds) s, s))
    (fun r => SFindMany (List.length r)).

Definition createPrimaryContact (em ph : option string)
    (tx : option TransactionClient) : M ContactRecord :=
  statement tx (create (orNull em) (orNull ph) None primary)
    (fun _ => SCreate primary).

Definition createSecondaryContact (linkedId_ : Z) (em ph : option string)
    (tx : option TransactionClient) : M ContactRecord :=
  statement tx (create (orNull em) (orNull ph) (Some linkedId_) secondary)
    (fun _ => SCreate secondary).

Definition demotePrimaryToSecondary (contactIds : list Z) (newLinkedId : Z)
    (tx : option TransactionClient) : M unit :=
  statement tx
    (fun s => (countWhere (whereIdIn contactIds) s,
               updateMany (whereIdIn contactIds) (dataDemote (clock s) newLinkedId) s))
    SUpdateMany ;;;
  ret tt.

Definition relinkSecondaries (oldPrimaryId newPrimaryId : Z)
    (tx : option TransactionClient) : M unit :=
  statement tx
    (fun s => (countWhere (whereLinkedTo oldPrimaryId) s,
               updateMany (whereLinkedTo oldPrimaryId) (dataRelink (clock s) newPrimaryId) s))
    SUpdateMany ;;;
  ret tt.

(** ** The service ([identify.service.ts]) *)

(** [getRootPrimaryIds]: a primary gives its own id, a secondary its
    [linkedId] when that is not null. *)
Definition getRootPrimaryIds (contacts_ : list ContactRecord) : list Z :=
  fold_left
    (fun ids c =>
       match linkPrecedence c with
       | primary => setAddZ ids (id c)
       | secondary =>
           match linkedId c with
           | Some l => setAddZ ids l
           | None => ids
           end
       end)
    contacts_ [].

(** The two insertion-ordered sets of [buildResponse]. *)
Definition addIfTruthy (s : list string) (v : option string) : list string :=
  match v with
  | Some x => if truthy v then setAddStr s x else s
  | None => s
  end.

Definition buildResponse (primary_ : ContactRecord)
    (secondaries : list ContactRecord) : IdentifyResponse :=
  let emailSet := addIfTruthy [] (email primary_) in
  let phoneSet := addIfTruthy [] (phoneNumber primary_) in
  let emailSet := fold_left (fun s c => addIfTruthy s (email c)) secondaries emailSet in
  let phoneSet := fold_left (fun s c => addIfTruthy s (phoneNumber c)) secondaries phoneSet in
  {| contact :=
       {| primaryContactId := id primary_;
          emails := emailSet;
          phoneNumbers := phoneSet;
          secondaryContactIds := map id secondaries |} |}.

Definition isPrimary (c : ContactRecord) : bool :=
  LinkPrecedence_eqb (linkPrecedence c) primary.
Definition isSecondary (c : ContactRecord) : bool :=
  LinkPrecedence_eqb (linkPrecedence c) secondary.

(** Step 5 of [mergeAndRespond]: the primaries of the cluster, oldest
    first. *)
Definition primariesOf (cluster : list ContactRecord) : list ContactRecord :=
  sortBy createdAt (filter isPrimary cluster).

(** [email && !clusterEmails.has(email)] *)
Definition isNew (v : option string) (clusterValues : list string) : bool :=
  match v with
  | Some x => truthy v && negb (inStr x clusterValues)
  | None => false
  end.

Definition mergeAndRespond (directMatches : list ContactRecord)
    (em ph : option string) : M IdentifyResponse :=
  let primaryIds := getRootPrimaryIds directMatches in
  cluster <- findContactCluster primaryIds None ;;
  let primaries := primariesOf cluster in
  let truePrimary := hd_error primaries in
  let stalePrimaries := tl primaries in
  transaction (fun tx =>
    (if (0 <? List.length stalePrimaries)%nat then
       let staleIds := map id stalePrimaries in
       tp <- deref truePrimary ;;
       demotePrimaryToSecondary staleIds (id tp) (Some tx) ;;;
       forEach stalePrimaries
         (fun stale => relinkSecondaries (id stale) (id tp) (Some tx))
     else ret tt) ;;;
    tp <- deref truePrimary ;;
    freshCluster <- findContactCluster [id tp] (Some tx) ;;
    let clusterEmails := newSetStr (nonNull (map email freshCluster)) in
    let clusterPhones := newSetStr (nonNull (map phoneNumber freshCluster)) in
    let isNewEmail := isNew em clusterEmails in
    let isNewPhone := isNew ph clusterPhones in
    if isNewEmail || isNewPhone then
      createSecondaryContact (id tp) em ph (Some tx) ;;; ret tt
    else ret tt) ;;;
  tp <- deref truePrimary ;;
  finalCluster <- findContactCluster [id tp] None ;;
  finalPrimary <- deref (find (fun c => id c =? id tp) finalCluster) ;;
  let secondaries := filter isSecondary finalCluster in
  ret (buildResponse finalPrimary secondaries).

Definition identifyContact (payload : IdentifyRequest) : M IdentifyResponse :=
  let em := reqEmail payload in
  let ph := reqPhoneNumber payload in
  directMatches <- findContactsByEmailOrPhone em ph None ;;
  if (List.length directMatches =? 0)%nat then
    newContact <- transaction (fun tx =>
      recheck <- findContactsByEmailOrPhone em ph (Some tx) ;;
      if (List.length recheck =? 0)%nat then
        c <- createPrimaryContact em ph (Some tx) ;;
        ret (Some c)
      else ret None) ;;
    match newContact with
    | Some c => ret (buildResponse c [])
    | None =>
        fallbackMatches <- findContactsByEmailOrPhone em ph None ;;
        if (List.length fallbackMatches =? 0)%nat then
          c <- createPrimaryContact em ph None ;;
          ret (buildResponse c [])
        else mergeAndRespond fallbackMatches em ph
    end
  else mergeAndRespond directMatches em ph.

(** A request running on its own: nothing pending, nothing sent yet. *)
Definition alone (s : Store) : World :=
  {| db := s; pending := []; trace := [] |}.

(** ** What a request running on its own computes

    The definitions below name the intermediate values of [identifyContact]
    and [mergeAndRespond]; the lemmas of section "Runs on their own" show
    that a run in [alone s] computes exactly these. *)

(** [directMatches] *)
Definition matchesOf (em ph : option string) (s : Store) : list ContactRecord :=
  if (List.length (orConditions em ph) =? 0)%nat then []
  else findMany (whereOr (orConditions em ph)) s.

(** The result of [findContactCluster(primaryIds)] *)
Definition clusterOf (primaryIds : list Z) (s : Store) : list ContactRecord :=
  findMany (whereCluster primaryIds) s.

(** [cluster] of [mergeAndRespond] for the matches of the payload *)
Definition implicated (em ph : option string) (s : Store) : list ContactRecord :=
  clusterOf (getRootPrimaryIds (matchesOf em ph s)) s.

(** The loop of step 5b. *)
Definition relinkAll (stalePrimaries : list ContactRecord) (newPrimaryId : Z)
    (s : Store) : Store :=
  fold_left
    (fun s' stale =>
       updateMany (whereLinkedTo (id stale)) (dataRelink (clock s') newPrimaryId) s')
    stalePrimaries s.

(** Steps 5a and 5b. *)
Definition demoteStale (tp : ContactRecord) (stalePrimaries : list ContactRecord)
    (s : Store) : Store :=
  if (0 <? List.length stalePrimaries)%nat then
    relinkAll stalePrimaries (id tp)
      (updateMany (whereIdIn (map id stalePrimaries)) (dataDemote (clock s) (id tp)) s)
  else s.

(** The test of step 6 on the fresh cluster. *)
Definition addsInformation (tp : ContactRecord) (em ph : option string)
    (s : Store) : bool :=
  let freshCluster := clusterOf [id tp] s in
  isNew em (newSetStr (nonNull (map email freshCluster)))
  || isNew ph (newSetStr (nonNull (map phoneNumber freshCluster))).

(** Step 6. *)
Definition ingest (tp : ContactRecord) (em ph : option string) (s : Store) : Store :=
  if addsInformation tp em ph s
  then snd (create (orNull em) (orNull ph) (Some (id tp)) secondary s)
  else s.

(** Step 7. *)
Definition respond (tp : ContactRecord) (s : Store) : Outcome IdentifyResponse :=
  let finalCluster := clusterOf [id tp] s in
  match find (fun c => id c =? id tp) finalCluster with
  | Some finalPrimary =>
      Return (buildResponse finalPrimary (filter isSecondary finalCluster))
  | None => Throw TypeError
  end.

(** The outcome and the final table of a run on its own. *)
Definition runAlone (payload : IdentifyRequest) (s : Store)
    : Outcome IdentifyResponse * Store :=
  let (r, w) := identifyContact payload (alone s) in (r, db w).

(** The sequential reading of [identifyContact]. *)
Definition sequential (em ph : option string) (s : Store)
    : Outcome IdentifyResponse * Store :=
  match matchesOf em ph s with
  | [] =>
      let (c, s') := create (orNull em) (orNull ph) None primary s in
      (Return (buildResponse c []), s')
  | _ :: _ =>
      match primariesOf (implicated em ph s) with
      | [] => (Throw TypeError, s)
      | tp :: stale =>
          let s' := ingest tp em ph (demoteStale tp stale s) in
          (respond tp s', s')
      end
  end.


(** ** The response as the specification words it

    The values of one field over the primary followed by the members, in
    that order, keeping those that are present (a string that is not
    empty) and skipping the ones already seen. *)
Fixpoint skipSeen (seen : list string) (vals : list string) : list string :=
  match vals with
  | [] => []
  | v :: vs =>
      if inStr v seen then skipSeen seen vs else v :: skipSeen (v :: seen) vs
  end.

Fixpoint presentValues (field : ContactRecord -> option string)
    (cs : list ContactRecord) : list string :=
  match cs with
  | [] => []
  | c :: cs' =>
      match field c with
      | Some v => if (v =? EmptyString)%string then presentValues field cs'
                  else v :: presentValues field cs'
      | None => presentValues field cs'
      end
  end.

Definition consolidated (field : ContactRecord -> option string)
    (primary_ : ContactRecord) (members : list ContactRecord) : list string :=
  skipSeen [] (presentValues field (primary_ :: members)).

(** Some row of the cluster carries the value in the field. *)
Definition hasValue (field : ContactRecord -> option string) (v : string)
    (cluster : list ContactRecord) : Prop :=
  exists c, In c cluster /\ field c = Some v.

(** The submitted value is new for the cluster: it is set and no row of
    the cluster carries it. *)
Definition newFact (field : ContactRecord -> option string) (v : option string)
    (cluster : list ContactRecord) : Prop :=
  exists x, v = Some x /\ x <> EmptyString /\ ~ hasValue field x cluster.

(** What steps 5a and 5b do to one row: a stale primary is demoted, a
    row not deleted that pointed at a stale primary is relinked, any other
    row stays. *)
Definition mergedRow (now newPrimaryId : Z) (staleIds : list Z)
    (c : ContactRecord) : ContactRecord :=
  if inZ (id c) staleIds then dataDemote now newPrimaryId c
  else if optZIn (linkedId c) staleIds && isNull (deletedAt c)
       then dataRelink now newPrimaryId c
       else c.

(** A row answers the payload: it is not deleted and carries the submitted
    email or the submitted phone number. *)
Definition answers (em ph : option string) (c : ContactRecord) : Prop :=
  deletedAt c = None
  /\ ((truthy em = true /\ email c = em)
      \/ (truthy ph = true /\ phoneNumber c = ph)).


(** The root a matched row resolves to. *)
Definition rootOf (c : ContactRecord) : option Z :=
  match linkPrecedence c with
  | primary => Some (id c)
  | secondary => linkedId c
  end.


Definition relinkedRow (now newPrimaryId : Z) (staleIds : list Z)
    (c : ContactRecord) : ContactRecord :=
  if optZIn (linkedId c) staleIds && isNull (deletedAt c)
  then dataRelink now newPrimaryId c
  else c.


(** Ascending order by the pair (created-at, identifier). *)
Definition pairLe (a b : ContactRecord) : Prop :=
  createdAt a < createdAt b \/ (createdAt a = createdAt b /\ id a <= id b).

(** ** Example rows and stores *)

Definition tieLate : ContactRecord :=
  mkContact 2 (Some "111"%string) None None primary 5 5 None.
Definition tieEarly : ContactRecord :=
  mkContact 1 None (Some "a@x.com"%string) None primary 5 5 None.
Definition distinctLate : ContactRecord :=
  mkContact 2 (Some "111"%string) None None primary 7 7 None.


(** ** Well-formed tables

    [id] is the primary key; the sequence behind it has not yet given out
    [nextId], so no row carries it and no row refers to it. *)
Definition uniqueIds (s : Store) : Prop := NoDup (map id (contacts s)).

Definition idsBelowNext (s : Store) : Prop :=
  forall c, In c (contacts s) -> id c < nextId s.

Definition linksBelowNext (s : Store) : Prop :=
  forall c l, In c (contacts s) -> linkedId c = Some l -> l < nextId s.

(** No row that is not deleted points at a secondary. *)
Definition directLinks (s : Store) : Prop :=
  forall c q l,
    In c (contacts s) -> deletedAt c = None -> linkedId c = Some l ->
    In q (contacts s) -> id q = l -> linkPrecedence q = primary.

Definition rowA : ContactRecord :=
  mkContact 1 None (Some "a@x.com"%string) None primary 10 10 None.
Definition rowB : ContactRecord :=
  mkContact 2 (Some "111"%string) None None primary 20 20 None.
Definition rowC : ContactRecord :=
  mkContact 3 (Some "222"%string) None (Some 2) secondary 30 30 None.

(** Two clusters: A on its own, and B with its secondary C. *)
Definition twoClusters : Store := mkStore [rowA; rowB; rowC] 4 100.

Definition additiveStore : Store :=
  mkStore [mkContact 1 (Some "1"%string) (Some "a@x.com"%string) None primary 10 10 None]
    2 50.

(** A secondary matched by the payload whose [linkedId] names no live
    primary of the table. *)
Definition validTarget (s : Store) (m : ContactRecord) : Prop :=
  exists q, In q (contacts s) /\ linkedId m = Some (id q)
            /\ linkPrecedence q = primary /\ deletedAt q = None.

Definition orphan : ContactRecord :=
  mkContact 1 None (Some "e@x.com"%string) None secondary 10 10 None.
Definition loneRep : ContactRecord :=
  mkContact 2 (Some "555"%string) None None primary 20 20 None.

(** A secondary without link next to an unrelated primary. *)
Definition corruptStore : Store := mkStore [orphan; loneRep] 3 100.
(** A secondary without link on its own. *)
Definition orphanStore : Store := mkStore [orphan] 2 100.

(** A primary carries no link. *)
Definition primariesUnlinked (s : Store) : Prop :=
  forall c, In c (contacts s) -> linkPrecedence c = primary -> linkedId c = None.

(** The same table at a later time. *)
Definition laterClock (now : Z) (s : Store) : Store :=
  mkStore (contacts s) (nextId s) now.

(** The table has taken in the payload under the primary [tid]: every
    root of a matched row that names a live primary names [tid], some
    matched row resolves to [tid], the row [tid] is a live primary, and the
    payload adds nothing to its cluster. *)
Record settled (em ph : option string) (tid : Z) (s : Store) : Prop := {
  settled_unique : uniqueIds s;
  settled_unlinked : primariesUnlinked s;
  settled_roots :
    forall m x q,
      In m (matchesOf em ph s) -> rootOf m = Some x ->
      In q (contacts s) -> id q = x -> linkPrecedence q = primary ->
      deletedAt q = None -> x = tid;
  settled_match : exists m, In m (matchesOf em ph s) /\ rootOf m = Some tid;
  settled_primary :
    exists t, In t (contacts s) /\ id t = tid /\ linkPrecedence t = primary
              /\ deletedAt t = None;
  settled_known : forall t, id t = tid -> addsInformation t em ph s = false
}.

(** ** Traces *)

(** What a lookup by email or phone sends: nothing when no field is set,
    one [findMany] otherwise. *)
Definition lookupEvents (em ph : option string) (inTx : bool) (hits : nat)
    : list Event :=
  if (List.length (orConditions em ph) =? 0)%nat then []
  else [mkEvent inTx (SFindMany hits)].

Definition createsPrimary (e : Event) : bool :=
  match stmt e with
  | SCreate primary => true
  | _ => false
  end.

Definition noPrimaryCreated (e : Event) : Prop := createsPrimary e = false.

(** Every run of [m] only adds events satisfying [P] to the trace. *)
Definition emits {A} (P : Event -> Prop) (m : M A) : Prop :=
  forall w, exists tr, trace (snd (m w)) = trace w ++ tr /\ Forall P tr.

(** Moves of other requests used in the examples. *)
Definition otherInserts (em ph : option string) (s : Store) : Store :=
  snd (create em ph None primary s).

(** The other request's transaction is rolled back: its rows are gone, the
    sequence is not reset. *)
Definition otherRollsBack (s : Store) : Store :=
  mkStore [] (nextId s) (clock s).

Definition racingWorld : World :=
  {| db := mkStore [] 1 0;
     pending := [ (fun s => s);
                  otherInserts (Some "n@x.com"%string) None;
                  otherRollsBack;
                  otherInserts (Some "n@x.com"%string) None ];
     trace := [] |}.

(** The tables the operation works on. *)
Definition wellFormed (s : Store) : Prop :=
  uniqueIds s /\ idsBelowNext s /\ linksBelowNext s /\ primariesUnlinked s.

(** A table on which a primary carries a link. *)
Definition linkedPrimaries : Store :=
  mkStore
    [ mkContact 2 None (Some "t@x.com"%string) (Some 7) primary 1 1 None;
      mkContact 3 None (Some "a@x.com"%string) (Some 7) secondary 2 2 None;
      mkContact 5 None (Some "q@x.com"%string) (Some 2) primary 0 0 None ]
    6 100.

(** ** Further notions used for the repository and the service *)

(** The fields of a row that no statement of the service writes. *)
Definition keptFields (c : ContactRecord)
    : Z * option string * option string * Z * option Z :=
  (id c, email c, phoneNumber c, createdAt c, deletedAt c).

(** Every live secondary points at a live primary of the table. *)
Definition soundLinks (s : Store) : Prop :=
  forall c, In c (contacts s) -> deletedAt c = None ->
    linkPrecedence c = secondary ->
    exists q, In q (contacts s) /\ linkedId c = Some (id q)
              /\ linkPrecedence q = primary /\ deletedAt q = None.

(** An update, or the creation of a secondary, is sent on the transaction
    client. *)
Definition writesInTransaction (e : Event) : Prop :=
  match stmt e with
  | SUpdateMany _ => inTransaction e = true
  | SCreate secondary => inTransaction e = true
  | _ => True
  end.

(** A table with a deleted row and a cluster the payload does not touch. *)
Definition rowDeleted : ContactRecord :=
  mkContact 4 (Some "111"%string) None (Some 2) secondary 40 40 (Some 45).
Definition rowOther : ContactRecord :=
  mkContact 5 (Some "999"%string) (Some "z@x.com"%string) None primary 50 50 None.
Definition busyStore : Store :=
  mkStore [rowA; rowB; rowC; rowDeleted; rowOther] 6 100.

(** ** The boundary ([middleware/validate.ts], [middleware/errorHandler.ts],
    [controllers/identify.controller.ts], [routes/identify.route.ts]) *)

(** A field of the JSON body as the schema sees it: missing, a string, or a
    value of another type ([null], a number, ...). *)
Inductive Field : Type := Absent | Str (s : string) | NotString.

(** [req.body]: an object with the two fields the schema keeps (other keys
    are stripped), or a value that is not an object. *)
Inductive Body : Type := NotObject | Obj (emailField phoneField : Field).

(** [z.string().email(...).optional()]; [isEmail] is the format test of
    the schema library. *)
Definition parseEmail (isEmail : string -> bool) (f : Field)
    : option (option string) :=
  match f with
  | Absent => Some None
  | Str s => if isEmail s then Some (Some s) else None
  | NotString => None
  end.

(** [z.string().min(1, ...).optional()] *)
Definition parsePhoneNumber (f : Field) : option (option string) :=
  match f with
  | Absent => Some None
  | Str s => if (1 <=? String.length s)%nat then Some (Some s) else None
  | NotString => None
  end.

(** [identifySchema.safeParse(body)]: [Some data] on success. *)
Definition identifySchema (isEmail : string -> bool) (b : Body)
    : option IdentifyRequest :=
  match b with
  | NotObject => None
  | Obj ef pf =>
      match parseEmail isEmail ef, parsePhoneNumber pf with
      | Some em, Some ph =>
          if isSome em || isSome ph then Some (mkRequest em ph) else None
      | _, _ => None
      end
  end.

(** The body of a response; the [details] of a failed validation are not
    represented. *)
Inductive ResponseBody : Type :=
| BodyIdentify (result : IdentifyResponse)
| BodyError (error : string)
| BodyValidationFailed.

Record HttpResponse : Type := mkHttp {
  status : Z;
  body : ResponseBody
}.

(** [validateIdentify]: responds 400, or calls [next()] with [req.body]
    replaced by the parsed data. *)
Definition validateIdentify (isEmail : string -> bool) (b : Body)
    : HttpResponse + IdentifyRequest :=
  match identifySchema isEmail b with
  | None => inl (mkHttp 400 BodyValidationFailed)
  | Some data => inr data
  end.

(** [AppError]: an [Error] with an optional [statusCode]. *)
Record AppError : Type := mkAppError {
  errMessage : option string;
  statusCode : option Z
}.

Definition internalServerError : string := "Internal server error".

(** [errorHandler]; [nodeEnv] is [process.env.NODE_ENV]. *)
Definition errorHandler (nodeEnv : option string) (err : AppError) : HttpResponse :=
  let status_ := match statusCode err with Some c => c | None => 500 end in
  let message :=
    if optStrEqb nodeEnv "production" && (status_ =? 500)
    then internalServerError
    else match errMessage err with
         | Some m => m
         | None => internalServerError
         end in
  mkHttp status_ (BodyError message).

(** [createError] *)
Definition createError (message : string) (statusCode_ : Z) : AppError :=
  mkAppError (Some message) (Some statusCode_).

(** The error object of a runtime exception: the engine's message, no
    [statusCode]. *)
Definition thrown (engineMessage : string) (e : Exception) : AppError :=
  match e with
  | TypeError => mkAppError (Some engineMessage) None
  end.

(** [identifyController]: responds 200 with the result, or hands the error
    to [next]. *)
Definition identifyController (payload : IdentifyRequest)
    : World -> (HttpResponse + Exception) * World :=
  fun w =>
    match identifyContact payload w with
    | (Return result, w') => (inl (mkHttp 200 (BodyIdentify result)), w')
    | (Throw e, w') => (inr e, w')
    end.

(** [POST /identify]: [validateIdentify], then [identifyController], with
    [errorHandler] as the application's error middleware. *)
Definition postIdentify (isEmail : string -> bool) (nodeEnv : option string)
    (engineMessage : string) (b : Body) : World -> HttpResponse * World :=
  fun w =>
    match validateIdentify isEmail b with
    | inl rejected => (rejected, w)
    | inr payload =>
        match identifyController payload w with
        | (inl ok, w') => (ok, w')
        | (inr e, w') => (errorHandler nodeEnv (thrown engineMessage e), w')
        end
    end.

(** Every field of a row but [updatedAt]. *)
Definition unstamped (c : ContactRecord)
    : Z * option string * option string * option Z * LinkPrecedence * Z * option Z :=
  (id c, phoneNumber c, email c, linkedId c, linkPrecedence c, createdAt c,
   deletedAt c).

(** Another actor soft-deletes the live rows (soft-delete is not done by
    the service itself). *)
Definition otherSoftDeletes (at_ : Z) (s : Store) : Store :=
  mkStore
    (map (fun c =>
            match deletedAt c with
            | Some _ => c
            | None =>
                mkContact (id c) (phoneNumber c) (email c) (linkedId c)
                  (linkPrecedence c) (createdAt c) at_ (Some at_)
            end)
         (contacts s))
    (nextId s) (clock s).

(** A schedule of committed moves of others around one call: nothing
    before the first lookup; a request inserts the email before the call's
    transaction; the row is soft-deleted before the lookup that follows the
    transaction; a request inserts the email again before the call's last
    statement. *)
Definition gapWorld : World :=
  {| db := mkStore [] 1 0;
     pending := [ (fun s => s);
                  otherInserts (Some "n@x.com"%string) None;
                  otherSoftDeletes 0;
                  otherInserts (Some "n@x.com"%string) None ];
     trace := [] |}.
(** ** Sorting *)

Section SortingFacts.
Variable A : Type.
Variable key : A -> Z.

Lemma insertBy_perm (x : A) (l : list A) :
  Permutation (insertBy key x l) (x :: l).
Proof.
  induction l as [|y l IH]; simpl; [reflexivity|].
  destruct (key x <=? key y); [reflexivity|].
  rewrite IH. apply perm_swap.
Qed.

Lemma sortBy_perm (l : list A) : Permutation (sortBy key l) l.
Proof.
  induction l as [|x l IH]; simpl; [constructor|].
  rewrite insertBy_perm. now constructor.
Qed.

Lemma sortBy_In (l : list A) (x : A) : In x (sortBy key l) <-> In x l.
Proof.
  split; apply Permutation_in; [|symmetry]; apply sortBy_perm.
Qed.

Lemma insertBy_front (x : A) (l : list A) :
  Forall (keyLe key x) l -> insertBy key x l = x :: l.
Proof.
  destruct l as [|y l]; simpl; [reflexivity|].
  intros H. inversion H as [|? ? Hy _]; subst.
  unfold keyLe in Hy. apply Z.leb_le in Hy. now rewrite Hy.
Qed.

Lemma insertBy_sorted (x : A) (l : list A) :
  StronglySorted (keyLe key) l -> StronglySorted (keyLe key) (insertBy key x l).
Proof.
  induction 1 as [|y l Hs IH Hall]; simpl.
  - repeat constructor.
  - destruct (key x <=? key y) eqn:E.
    + apply Z.leb_le in E. constructor; [now constructor|].
      constructor; [exact E|].
      eapply Forall_impl; [|exact Hall]. unfold keyLe. intros; lia.
    + apply Z.leb_gt in E. constructor; [exact IH|].
      rewrite Forall_forall. intros z Hz.
      apply (Permutation_in _ (insertBy_perm x l)) in Hz.
      destruct Hz as [<-|Hz]; [unfold keyLe; lia|].
      rewrite Forall_forall in Hall. now apply Hall.
Qed.

Lemma sortBy_sorted (l : list A) : StronglySorted (keyLe key) (sortBy key l).
Proof.
  induction l; simpl; [constructor|now apply insertBy_sorted].
Qed.

Lemma sortBy_of_sorted (l : list A) :
  StronglySorted (keyLe key) l -> sortBy key l = l.
Proof.
  induction 1 as [|x l Hs IH Hall]; simpl; [reflexivity|].
  rewrite IH. now apply insertBy_front.
Qed.

Lemma filter_sorted (p : A -> bool) (l : list A) :
  StronglySorted (keyLe key) l -> StronglySorted (keyLe key) (filter p l).
Proof.
  induction 1 as [|x l Hs IH Hall]; simpl; [constructor|].
  destruct (p x); [|exact IH].
  constructor; [exact IH|].
  rewrite Forall_forall in *. intros z Hz.
  apply filter_In in Hz. now apply Hall.
Qed.

Lemma filter_insertBy (p : A -> bool) (x : A) (l : list A) :
  StronglySorted (keyLe key) l ->
  filter p (insertBy key x l)
  = if p x then insertBy key x (filter p l) else filter p l.
Proof.
  induction 1 as [|y l Hs IH Hall]; simpl.
  - now destruct (p x).
  - destruct (key x <=? key y) eqn:E; simpl.
    + destruct (p x) eqn:Px; [|reflexivity].
      symmetry. apply Z.leb_le in E.
      assert (Hx : Forall (keyLe key x) (y :: l)).
      { constructor; [exact E|].
        eapply Forall_impl; [|exact Hall]. unfold keyLe; intros; lia. }
      change (insertBy key x (filter p (y :: l)) = x :: filter p (y :: l)).
      apply insertBy_front.
      rewrite Forall_forall in *. intros z Hz.
      apply filter_In in Hz. now apply Hx.
    + rewrite IH. destruct (p y) eqn:Py, (p x) eqn:Px; simpl;
        rewrite ?E; reflexivity.
Qed.

(** The stable sort commutes with taking a sublist by a predicate. *)
Lemma filter_sortBy (p : A -> bool) (l : list A) :
  filter p (sortBy key l) = sortBy key (filter p l).
Proof.
  induction l as [|x l IH]; simpl; [reflexivity|].
  rewrite filter_insertBy by apply sortBy_sorted.
  rewrite IH. now destruct (p x).
Qed.

Lemma sortBy_idempotent (l : list A) :
  sortBy key (sortBy key l) = sortBy key l.
Proof. apply sortBy_of_sorted, sortBy_sorted. Qed.

(** Stability: elements with the same key keep their order. *)
Lemma sortBy_stable (k : Z) (l : list A) :
  filter (fun a => key a =? k) (sortBy key l)
  = filter (fun a => key a =? k) l.
Proof.
  rewrite filter_sortBy. apply sortBy_of_sorted.
  induction l as [|x l IH]; simpl; [constructor|].
  destruct (key x =? k) eqn:E; [|exact IH].
  constructor; [exact IH|].
  rewrite Forall_forall. intros z Hz. apply filter_In in Hz.
  destruct Hz as [_ Hz]. apply Z.eqb_eq in E, Hz. unfold keyLe. lia.
Qed.

Lemma sortBy_map_perm (B : Type) (f : A -> B) (l : list A) :
  Permutation (map f (sortBy key l)) (map f l).
Proof. apply Permutation_map, sortBy_perm. Qed.

Lemma sortBy_nil_inv (l : list A) : sortBy key l = [] -> l = [].
Proof.
  intros H. apply Permutation_nil. rewrite <- H. apply sortBy_perm.
Qed.
End SortingFacts.

(** ** Runs on their own *)

Lemma forEach_relink_alone (stale : list ContactRecord) (tid : Z) (s : Store) (tr : list Event) :
  exists tr',
    forEach stale (fun st => relinkSecondaries (id st) tid (Some txClient))
      (mkWorld s [] tr)
    = (Return tt, mkWorld (relinkAll stale tid s) [] tr').
Proof.
  revert s tr. induction stale as [|x stale IH]; intros s tr; simpl.
  - now exists tr.
  - unfold bind at 1. unfold relinkSecondaries at 1. unfold bind, statement, ret. simpl.
    apply IH.
Qed.

Lemma demote_step_alone tp stale s tr :
  exists tr',
    (if (0 <? List.length stale)%nat then
       tp0 <- deref (Some tp) ;;
       demotePrimaryToSecondary (map id stale) (id tp0) (Some txClient) ;;;
       forEach stale
         (fun stale0 => relinkSecondaries (id stale0) (id tp0) (Some txClient))
     else ret tt) (mkWorld s [] tr)
    = (Return tt, mkWorld (demoteStale tp stale s) [] tr').
Proof.
  unfold demoteStale. destruct (0 <? List.length stale)%nat.
  - unfold bind at 1. cbn [deref ret].
    unfold bind at 1. unfold demotePrimaryToSecondary, bind, statement, ret.
    cbn [isSome db pending trace].
    apply forEach_relink_alone.
  - eexists. reflexivity.
Qed.

Lemma mergeAndRespond_alone dm em ph s tr :
  exists tr',
    mergeAndRespond dm em ph (mkWorld s [] tr)
    = match primariesOf (clusterOf (getRootPrimaryIds dm) s) with
      | [] => (Throw TypeError, mkWorld s [] tr')
      | tp :: stale =>
          let s' := ingest tp em ph (demoteStale tp stale s) in
          (respond tp s', mkWorld s' [] tr')
      end.
Proof.
  unfold mergeAndRespond.
  unfold bind at 1. unfold findContactCluster at 1. unfold statement at 1.
  cbn [isSome interfere pending db trace].
  fold (clusterOf (getRootPrimaryIds dm) s).
  destruct (primariesOf (clusterOf (getRootPrimaryIds dm) s)) as [|tp stale] eqn:E.
  - cbn. eexists. reflexivity.
  - cbn [hd_error tl].
    unfold bind at 1. unfold transaction at 1.
    cbn [interfere pending].
    unfold bind at 1.
    match goal with |- context [ (if ?c then ?a else ?b) ?w ] =>
      destruct (demote_step_alone tp stale s (trace w)) as [tr1 H1] end.
    cbn [trace] in H1. rewrite H1.
    unfold bind at 1. cbn [deref ret].
    unfold bind at 1. unfold findContactCluster at 1. unfold statement at 1.
    cbn [isSome db pending trace].
    fold (clusterOf [id tp] (demoteStale tp stale s)).
    cbv zeta. unfold ingest, addsInformation.
    cbv zeta.
    destruct (isNew em _ || isNew ph _).
    + unfold bind at 1. unfold createSecondaryContact. unfold statement at 1.
      unfold create at 1.
      cbn [isSome db pending trace ret snd].
      unfold bind at 1. cbn [deref ret].
      unfold bind at 1. unfold findContactCluster, statement.
      cbn [isSome interfere db pending trace].
      unfold respond, clusterOf, bind, deref, ret, throw, findMany.
      cbn [fst snd create db contacts].
      match goal with |- context [find ?f ?l] => destruct (find f l) end;
        eexists; reflexivity.
    + cbn [ret].
      unfold bind at 1. cbn [deref ret].
      unfold bind at 1. unfold findContactCluster, statement.
      cbn [isSome interfere db pending trace].
      unfold respond, clusterOf, bind, deref, ret, throw, findMany.
      cbn [fst snd create db contacts].
      match goal with |- context [find ?f ?l] => destruct (find f l) end;
        eexists; reflexivity.
Qed.

Lemma findContactsByEmailOrPhone_alone em ph tx s tr :
  exists tr',
    findContactsByEmailOrPhone em ph tx (mkWorld s [] tr)
    = (Return (matchesOf em ph s), mkWorld s [] tr').
Proof.
  unfold findContactsByEmailOrPhone, matchesOf.
  destruct (List.length (orConditions em ph) =? 0)%nat.
  - eexists. reflexivity.
  - unfold statement. destruct tx; cbn; eexists; reflexivity.
Qed.

Lemma runAlone_sequential (payload : IdentifyRequest) (s : Store) :
  runAlone payload s = sequential (reqEmail payload) (reqPhoneNumber payload) s.
Proof.
  unfold runAlone, sequential, identifyContact, alone.
  set (em := reqEmail payload). set (ph := reqPhoneNumber payload).
  unfold bind at 1.
  destruct (findContactsByEmailOrPhone_alone em ph None s []) as [tr1 ->].
  destruct (matchesOf em ph s) as [|m ms] eqn:E.
  - cbn [List.length Nat.eqb].
    unfold bind at 1. unfold transaction. cbn [interfere pending].
    unfold bind at 1.
    destruct (findContactsByEmailOrPhone_alone em ph (Some txClient) s tr1) as [tr2 ->].
    rewrite E. cbn [List.length Nat.eqb].
    unfold bind, createPrimaryContact, statement, create, ret.
    cbn. reflexivity.
  - cbn [List.length Nat.eqb].
    destruct (mergeAndRespond_alone (m :: ms) em ph s tr1) as [tr2 ->].
    unfold implicated. rewrite E.
    destruct (primariesOf _); reflexivity.
Qed.

(** ** Sets in insertion order *)

Lemma inStr_In (x : string) (l : list string) : inStr x l = true <-> In x l.
Proof.
  unfold inStr. rewrite existsb_exists. split.
  - intros [y [Hy E]]. apply String.eqb_eq in E. now subst.
  - intros H. exists x. split; [exact H|apply String.eqb_refl].
Qed.

Lemma inZ_In (x : Z) (l : list Z) : inZ x l = true <-> In x l.
Proof.
  unfold inZ. rewrite existsb_exists. split.
  - intros [y [Hy E]]. apply Z.eqb_eq in E. now subst.
  - intros H. exists x. split; [exact H|apply Z.eqb_refl].
Qed.

Lemma inStr_false (x : string) (l : list string) : inStr x l = false <-> ~ In x l.
Proof.
  rewrite <- inStr_In. destruct (inStr x l); split; congruence.
Qed.

Lemma inZ_false (x : Z) (l : list Z) : inZ x l = false <-> ~ In x l.
Proof.
  rewrite <- inZ_In. destruct (inZ x l); split; congruence.
Qed.

Lemma setAddStr_In (s : list string) (x y : string) :
  In y (setAddStr s x) <-> In y s \/ y = x.
Proof.
  unfold setAddStr. destruct (inStr x s) eqn:E.
  - apply inStr_In in E. split; [now left|]. intros [H| ->]; assumption.
  - rewrite in_app_iff. simpl. intuition.
Qed.

Lemma setAddZ_In (s : list Z) (x y : Z) :
  In y (setAddZ s x) <-> In y s \/ y = x.
Proof.
  unfold setAddZ. destruct (inZ x s) eqn:E.
  - apply inZ_In in E. split; [now left|]. intros [H| ->]; assumption.
  - rewrite in_app_iff. simpl. intuition.
Qed.

Lemma fold_setAddStr_In (l s : list string) (y : string) :
  In y (fold_left setAddStr l s) <-> In y s \/ In y l.
Proof.
  revert s. induction l as [|x l IH]; intros s; simpl.
  - intuition.
  - rewrite IH, setAddStr_In. intuition.
Qed.

Lemma newSetStr_In (l : list string) (y : string) :
  In y (newSetStr l) <-> In y l.
Proof.
  unfold newSetStr. rewrite fold_setAddStr_In. simpl. intuition.
Qed.

Lemma nonNull_In (l : list (option string)) (y : string) :
  In y (nonNull l) <-> In (Some y) l.
Proof.
  induction l as [|[v|] l IH]; simpl.
  - reflexivity.
  - rewrite IH. split; intros [H|H]; auto; left; congruence.
  - rewrite IH. split; [auto|]. intros [H|H]; [discriminate|exact H].
Qed.

Lemma clusterValues_In (field : ContactRecord -> option string)
    (cluster : list ContactRecord) (x : string) :
  In x (newSetStr (nonNull (map field cluster))) <-> hasValue field x cluster.
Proof.
  rewrite newSetStr_In, nonNull_In, in_map_iff. unfold hasValue.
  split; intros [c H]; exists c; tauto.
Qed.

Lemma truthy_Some (x : string) : truthy (Some x) = true <-> x <> EmptyString.
Proof.
  simpl. destruct (String.eqb_spec x EmptyString); simpl; split; congruence.
Qed.

Lemma isNew_newFact (field : ContactRecord -> option string) (v : option string)
    (cluster : list ContactRecord) :
  isNew v (newSetStr (nonNull (map field cluster))) = true
  <-> newFact field v cluster.
Proof.
  unfold isNew, newFact. destruct v as [x|].
  - rewrite andb_true_iff, negb_true_iff, inStr_false, clusterValues_In, truthy_Some.
    split.
    + intros [H1 H2]. exists x. auto.
    + intros [y [E [H1 H2]]]. injection E as <-. auto.
  - split; [discriminate|]. intros [x [E _]]. discriminate.
Qed.

(** ** The response builder *)

Lemma skipSeen_app (seen vals : list string) :
  forall acc,
    (forall y, In y seen <-> In y acc) ->
    fold_left setAddStr vals acc = acc ++ skipSeen seen vals.
Proof.
  revert seen. induction vals as [|v vs IH]; intros seen acc Hs; simpl.
  - now rewrite app_nil_r.
  - unfold setAddStr at 2.
    destruct (inStr v acc) eqn:Ea.
    + assert (Es : inStr v seen = true)
        by (apply inStr_In, Hs; now apply inStr_In).
      rewrite Es. now apply IH.
    + assert (Es : inStr v seen = false).
      { apply inStr_false. intros H. apply Hs in H.
        apply inStr_false in Ea. contradiction. }
      rewrite Es. rewrite (IH (v :: seen) (acc ++ [v])).
      * now rewrite <- app_assoc.
      * intros y. rewrite in_app_iff. simpl. rewrite Hs. intuition.
Qed.

Lemma fold_addIfTruthy (field : ContactRecord -> option string)
    (cs : list ContactRecord) (acc : list string) :
  fold_left (fun s c => addIfTruthy s (field c)) cs acc
  = fold_left setAddStr (presentValues field cs) acc.
Proof.
  revert acc. induction cs as [|c cs IH]; intros acc; simpl; [reflexivity|].
  unfold addIfTruthy at 2. destruct (field c) as [v|]; simpl.
  - destruct (v =? EmptyString)%string; simpl; apply IH.
  - apply IH.
Qed.

Lemma buildResponse_consolidated (p : ContactRecord) (ss : list ContactRecord) :
  buildResponse p ss
  = {| contact :=
         {| primaryContactId := id p;
            emails := consolidated email p ss;
            phoneNumbers := consolidated phoneNumber p ss;
            secondaryContactIds := map id ss |} |}.
Proof.
  unfold buildResponse, consolidated.
  assert (H : forall field,
    fold_left (fun s c => addIfTruthy s (field c)) ss (addIfTruthy [] (field p))
    = skipSeen [] (presentValues field (p :: ss))).
  { intros field.
    change (addIfTruthy [] (field p))
      with (fold_left (fun s c => addIfTruthy s (field c)) [p] []).
    rewrite <- fold_left_app. change ([p] ++ ss) with (p :: ss).
    rewrite fold_addIfTruthy.
    rewrite (skipSeen_app [] (presentValues field (p :: ss)) []);
      [reflexivity|tauto]. }
  now rewrite !H.
Qed.

(** ** Queries *)

Unset Implicit Arguments.

Lemma findMany_In (p : ContactRecord -> bool) (s : Store) (c : ContactRecord) :
  In c (findMany p s) <-> In c (contacts s) /\ p c = true.
Proof. unfold findMany. now rewrite sortBy_In, filter_In. Qed.

Lemma isNull_true {A} (o : option A) : isNull o = true <-> o = None.
Proof. destruct o; simpl; split; congruence. Qed.

Lemma optZIn_true (o : option Z) (l : list Z) :
  optZIn o l = true <-> exists x, o = Some x /\ In x l.
Proof.
  destruct o as [x|]; simpl.
  - rewrite inZ_In. split.
    + intros H. now exists x.
    + intros [y [E H]]. now injection E as ->.
  - split; [discriminate|]. intros [x [E _]]. discriminate.
Qed.

Lemma optZEqb_true (o : option Z) (x : Z) : optZEqb o x = true <-> o = Some x.
Proof.
  destruct o as [y|]; simpl.
  - rewrite Z.eqb_eq. split; congruence.
  - split; discriminate.
Qed.

Lemma optStrEqb_true (o : option string) (x : string) :
  optStrEqb o x = true <-> o = Some x.
Proof.
  destruct o as [y|]; simpl.
  - rewrite String.eqb_eq. split; congruence.
  - split; discriminate.
Qed.

Lemma whereCluster_true (ids : list Z) (c : ContactRecord) :
  whereCluster ids c = true
  <-> deletedAt c = None
      /\ (In (id c) ids \/ exists l, linkedId c = Some l /\ In l ids).
Proof.
  unfold whereCluster.
  now rewrite andb_true_iff, orb_true_iff, isNull_true, inZ_In, optZIn_true.
Qed.

Lemma clusterOf_In (ids : list Z) (s : Store) (c : ContactRecord) :
  In c (clusterOf ids s)
  <-> In c (contacts s) /\ deletedAt c = None
      /\ (In (id c) ids \/ exists l, linkedId c = Some l /\ In l ids).
Proof. unfold clusterOf. now rewrite findMany_In, whereCluster_true. Qed.

Lemma whereOr_orConditions (em ph : option string) (c : ContactRecord) :
  whereOr (orConditions em ph) c = true <-> answers em ph c.
Proof.
  unfold whereOr, orConditions, answers.
  rewrite existsb_app, orb_true_iff.
  assert (H : forall (field : ContactRecord -> option string) v,
    existsb (fun cond : ContactRecord -> bool => cond c)
      match v with
      | Some e => if truthy v
                  then [fun c => optStrEqb (field c) e && isNull (deletedAt c)]
                  else []
      | None => []
      end = true
    <-> deletedAt c = None /\ truthy v = true /\ field c = v).
  { intros field [e|]; [|simpl; intuition discriminate].
    destruct (truthy (Some e)) eqn:T; [|simpl; intuition discriminate].
    simpl. rewrite orb_false_r, andb_true_iff, optStrEqb_true, isNull_true.
    intuition. }
  rewrite (H email), (H phoneNumber). tauto.
Qed.

Lemma orConditions_nil (em ph : option string) :
  orConditions em ph = [] <-> truthy em = false /\ truthy ph = false.
Proof.
  unfold orConditions.
  destruct em as [e|], ph as [p|]; simpl;
    try destruct (e =? EmptyString)%string; try destruct (p =? EmptyString)%string; simpl;
    split; try discriminate; intuition discriminate.
Qed.

Lemma matchesOf_In (em ph : option string) (s : Store) (c : ContactRecord) :
  In c (matchesOf em ph s) <-> In c (contacts s) /\ answers em ph c.
Proof.
  unfold matchesOf.
  destruct (orConditions em ph) as [|c0 cs] eqn:E.
  - simpl. apply orConditions_nil in E. destruct E as [E1 E2].
    unfold answers. rewrite E1, E2. intuition discriminate.
  - cbn [List.length Nat.eqb]. rewrite <- E.
    now rewrite findMany_In, whereOr_orConditions.
Qed.

Lemma getRootPrimaryIds_In (l : list ContactRecord) (x : Z) :
  In x (getRootPrimaryIds l) <-> exists c, In c l /\ rootOf c = Some x.
Proof.
  unfold getRootPrimaryIds.
  assert (H : forall acc,
    In x (fold_left
            (fun ids c =>
               match linkPrecedence c with
               | primary => setAddZ ids (id c)
               | secondary =>
                   match linkedId c with
                   | Some l0 => setAddZ ids l0
                   | None => ids
                   end
               end) l acc)
    <-> In x acc \/ exists c, In c l /\ rootOf c = Some x).
  { induction l as [|c l IH]; intros acc; simpl.
    - split; [auto|]. intros [H|[c [[] _]]]. exact H.
    - rewrite IH. unfold rootOf.
      destruct (linkPrecedence c) eqn:LP.
      + rewrite setAddZ_In. split.
        * intros [[H| ->]|[c' [H1 H2]]]; eauto.
          right. exists c. rewrite LP. auto.
        * intros [H|[c' [[<-|H1] H2]]]; eauto.
          rewrite LP in H2. injection H2 as <-. auto.
      + destruct (linkedId c) as [l0|] eqn:L.
        * rewrite setAddZ_In. split.
          -- intros [[H| ->]|[c' [H1 H2]]]; eauto.
             right. exists c. rewrite LP. auto.
          -- intros [H|[c' [[<-|H1] H2]]]; eauto.
             rewrite LP, L in H2. injection H2 as <-. auto.
        * split.
          -- intros [H|[c' [H1 H2]]]; eauto.
          -- intros [H|[c' [[<-|H1] H2]]]; eauto.
             rewrite LP, L in H2. discriminate. }
  rewrite H. simpl. intuition.
Qed.

Lemma isPrimary_true (c : ContactRecord) :
  isPrimary c = true <-> linkPrecedence c = primary.
Proof. unfold isPrimary. destruct (linkPrecedence c); simpl; split; congruence. Qed.

Lemma isSecondary_true (c : ContactRecord) :
  isSecondary c = true <-> linkPrecedence c = secondary.
Proof. unfold isSecondary. destruct (linkPrecedence c); simpl; split; congruence. Qed.

Lemma primariesOf_In (cluster : list ContactRecord) (c : ContactRecord) :
  In c (primariesOf cluster) <-> In c cluster /\ linkPrecedence c = primary.
Proof. unfold primariesOf. now rewrite sortBy_In, filter_In, isPrimary_true. Qed.

(** ** The merge step, row by row *)

Lemma updateMany_fields (p : ContactRecord -> bool)
    (f : ContactRecord -> ContactRecord) (s : Store) :
  nextId (updateMany p f s) = nextId s /\ clock (updateMany p f s) = clock s.
Proof. now split. Qed.

Lemma relinkAll_fields (stale : list ContactRecord) (tid : Z) (s : Store) :
  nextId (relinkAll stale tid s) = nextId s
  /\ clock (relinkAll stale tid s) = clock s.
Proof.
  revert s. induction stale as [|x stale IH]; intros s; [now split|].
  change (relinkAll (x :: stale) tid s)
    with (relinkAll stale tid
            (updateMany (whereLinkedTo (id x)) (dataRelink (clock s) tid) s)).
  destruct (IH (updateMany (whereLinkedTo (id x)) (dataRelink (clock s) tid) s))
    as [H1 H2].
  now rewrite H1, H2.
Qed.

Lemma relinkedRow_step (now tid x : Z) (ids : list Z) (c : ContactRecord) :
  relinkedRow now tid ids
    (if whereLinkedTo x c then dataRelink now tid c else c)
  = relinkedRow now tid (x :: ids) c.
Proof.
  unfold relinkedRow, whereLinkedTo.
  destruct (deletedAt c) as [d|] eqn:D; simpl.
  - rewrite !andb_false_r. simpl. rewrite D. simpl. now rewrite !andb_false_r.
  - rewrite !andb_true_r.
    destruct (linkedId c) as [l|] eqn:L; simpl.
    + rewrite (Z.eqb_sym l x).
      destruct (x =? l) eqn:E; simpl.
      * rewrite D. simpl. rewrite andb_true_r.
        destruct (inZ tid ids); reflexivity.
      * rewrite L, D. simpl. now rewrite andb_true_r.
    + rewrite L, D. reflexivity.
Qed.

Lemma relinkAll_contacts (stale : list ContactRecord) (tid : Z) (s : Store) :
  contacts (relinkAll stale tid s)
  = map (relinkedRow (clock s) tid (map id stale)) (contacts s).
Proof.
  revert s. induction stale as [|x stale IH]; intros s.
  - simpl. rewrite <- (map_id (contacts s)) at 1.
    apply map_ext. intros c. unfold relinkedRow. simpl.
    now destruct (linkedId c).
  - change (relinkAll (x :: stale) tid s)
      with (relinkAll stale tid
              (updateMany (whereLinkedTo (id x)) (dataRelink (clock s) tid) s)).
    rewrite IH. cbn [updateMany contacts clock map].
    rewrite map_map. apply map_ext. intros c. apply relinkedRow_step.
Qed.

Lemma demoteStale_contacts (tp : ContactRecord) (stale : list ContactRecord)
    (s : Store) :
  contacts (demoteStale tp stale s)
  = map (mergedRow (clock s) (id tp) (map id stale)) (contacts s).
Proof.
  unfold demoteStale. destruct stale as [|x stale].
  - simpl. rewrite <- (map_id (contacts s)) at 1.
    apply map_ext. intros c. unfold mergedRow. simpl.
    now destruct (linkedId c).
  - cbn [List.length Nat.ltb Nat.leb].
    rewrite relinkAll_contacts. cbn [updateMany contacts clock].
    rewrite map_map. apply map_ext. intros c.
    unfold mergedRow, whereIdIn.
    destruct (inZ (id c) (map id (x :: stale))); [|reflexivity].
    unfold relinkedRow. cbn [dataDemote linkedId deletedAt].
    destruct (optZIn (Some (id tp)) (map id (x :: stale)) && isNull (deletedAt c));
      reflexivity.
Qed.

Lemma demoteStale_fields (tp : ContactRecord) (stale : list ContactRecord)
    (s : Store) :
  nextId (demoteStale tp stale s) = nextId s
  /\ clock (demoteStale tp stale s) = clock s.
Proof.
  unfold demoteStale. destruct (0 <? List.length stale)%nat; [|now split].
  destruct (relinkAll_fields stale (id tp)
              (updateMany (whereIdIn (map id stale))
                 (dataDemote (clock s) (id tp)) s)) as [H1 H2].
  now rewrite H1, H2.
Qed.

Lemma mergedRow_kept (now tid : Z) (ids : list Z) (c : ContactRecord) :
  id (mergedRow now tid ids c) = id c
  /\ email (mergedRow now tid ids c) = email c
  /\ phoneNumber (mergedRow now tid ids c) = phoneNumber c
  /\ deletedAt (mergedRow now tid ids c) = deletedAt c
  /\ createdAt (mergedRow now tid ids c) = createdAt c.
Proof.
  unfold mergedRow.
  destruct (inZ (id c) ids); [now repeat split|].
  destruct (optZIn (linkedId c) ids && isNull (deletedAt c)); now repeat split.
Qed.

(** The three cases of [mergedRow]. *)
Lemma mergedRow_cases (now tid : Z) (ids : list Z) (c : ContactRecord) :
  (In (id c) ids
   /\ mergedRow now tid ids c = dataDemote now tid c)
  \/ (~ In (id c) ids
      /\ (exists l, linkedId c = Some l /\ In l ids) /\ deletedAt c = None
      /\ mergedRow now tid ids c = dataRelink now tid c)
  \/ (~ In (id c) ids
      /\ ~ ((exists l, linkedId c = Some l /\ In l ids) /\ deletedAt c = None)
      /\ mergedRow now tid ids c = c).
Proof.
  unfold mergedRow.
  destruct (inZ (id c) ids) eqn:E1.
  - left. apply inZ_In in E1. now split.
  - apply inZ_false in E1. right.
    destruct (optZIn (linkedId c) ids && isNull (deletedAt c)) eqn:E2.
    + apply andb_true_iff in E2. destruct E2 as [E2 E3].
      apply optZIn_true in E2. apply isNull_true in E3. left. tauto.
    + right. split; [exact E1|]. split; [|reflexivity].
      intros [H1 H2]. apply optZIn_true in H1. apply isNull_true in H2.
      rewrite H1, H2 in E2. discriminate.
Qed.

Lemma unique_row (l : list ContactRecord) (a b : ContactRecord) :
  NoDup (map id l) -> In a l -> In b l -> id a = id b -> a = b.
Proof.
  induction l as [|x l IH]; simpl; [tauto|].
  intros Hnd Ha Hb E. inversion Hnd as [|? ? Hx Hnd']; subst.
  destruct Ha as [->|Ha], Hb as [->|Hb]; auto.
  - exfalso. apply Hx. rewrite E. now apply in_map.
  - exfalso. apply Hx. rewrite <- E. now apply in_map.
Qed.

(** Selecting rows keeps the identifiers distinct. *)
Lemma ids_distinct_after_filter (sel : ContactRecord -> bool)
    (rows : list ContactRecord) :
  NoDup (map id rows) -> NoDup (map id (filter sel rows)).
Proof.
  intros Hrows.
  induction rows as [|r rows IH]; [constructor|].
  cbn [map] in Hrows. apply NoDup_cons_iff in Hrows.
  destruct Hrows as [Hfresh Hrest]. cbn [filter].
  destruct (sel r); [|now apply IH].
  cbn [map]. apply NoDup_cons_iff. split; [|now apply IH].
  intros Hdup. apply Hfresh. apply in_map_iff in Hdup.
  destruct Hdup as [r' [Eid Hr']]. apply filter_In in Hr'.
  rewrite <- Eid. apply in_map. tauto.
Qed.

Lemma clusterOf_nil (s : Store) : clusterOf [] s = [].
Proof.
  destruct (clusterOf [] s) as [|c l] eqn:E; [reflexivity|].
  assert (H : In c (clusterOf [] s)) by (rewrite E; now left).
  apply clusterOf_In in H. destruct H as [_ [_ [[]|[l0 [_ []]]]]].
Qed.

Lemma implicated_In (em ph : option string) (s : Store) (c : ContactRecord) :
  In c (implicated em ph s) -> In c (contacts s) /\ deletedAt c = None.
Proof. unfold implicated. rewrite clusterOf_In. tauto. Qed.

Lemma primaries_nonempty_matches (em ph : option string) (s : Store)
    (tp : ContactRecord) (stale : list ContactRecord) :
  primariesOf (implicated em ph s) = tp :: stale -> matchesOf em ph s <> [].
Proof.
  intros Hp Hm. unfold implicated in Hp. rewrite Hm in Hp.
  change (getRootPrimaryIds []) with (@nil Z) in Hp.
  rewrite clusterOf_nil in Hp. discriminate.
Qed.

Lemma primaries_facts (em ph : option string) (s : Store)
    (tp : ContactRecord) (stale : list ContactRecord) :
  primariesOf (implicated em ph s) = tp :: stale ->
  forall p, In p (tp :: stale) ->
    In p (implicated em ph s) /\ In p (contacts s) /\ deletedAt p = None
    /\ linkPrecedence p = primary.
Proof.
  intros Hp p Hin. rewrite <- Hp in Hin. apply primariesOf_In in Hin.
  destruct Hin as [H1 H2]. destruct (implicated_In _ _ _ _ H1). tauto.
Qed.

Lemma primaries_ids_NoDup (em ph : option string) (s : Store) :
  uniqueIds s -> NoDup (map id (primariesOf (implicated em ph s))).
Proof.
  intros Hu. unfold primariesOf, implicated, clusterOf, findMany.
  eapply Permutation_NoDup.
  - symmetry. apply sortBy_map_perm.
  - apply ids_distinct_after_filter.
    eapply Permutation_NoDup.
    + symmetry. apply sortBy_map_perm.
    + now apply ids_distinct_after_filter.
Qed.

Lemma truePrimary_not_stale (em ph : option string) (s : Store)
    (tp : ContactRecord) (stale : list ContactRecord) :
  uniqueIds s ->
  primariesOf (implicated em ph s) = tp :: stale ->
  ~ In (id tp) (map id stale).
Proof.
  intros Hu Hp. pose proof (primaries_ids_NoDup em ph s Hu) as H.
  rewrite Hp in H. simpl in H. now inversion H.
Qed.

Lemma truePrimary_oldest (cluster : list ContactRecord)
    (tp : ContactRecord) (stale : list ContactRecord) :
  primariesOf cluster = tp :: stale ->
  forall p, In p stale -> createdAt tp <= createdAt p.
Proof.
  intros Hp p Hin.
  pose proof (sortBy_sorted createdAt (filter isPrimary cluster)) as H.
  fold (primariesOf cluster) in H. rewrite Hp in H.
  inversion H as [|? ? _ Hall]; subst.
  rewrite Forall_forall in Hall. now apply Hall.
Qed.

Lemma find_exists {A} (f : A -> bool) (l : list A) (x : A) :
  In x l -> f x = true -> exists y, find f l = Some y.
Proof.
  intros Hin Hf. destruct (find f l) as [y|] eqn:E; [now exists y|].
  pose proof (find_none f l E x Hin). congruence.
Qed.

(** The rows of the table after a call that matched. *)
Lemma ingest_contacts (tp : ContactRecord) (em ph : option string) (s : Store)
    (c : ContactRecord) :
  In c (contacts (ingest tp em ph s))
  <-> In c (contacts s)
      \/ (addsInformation tp em ph s = true
          /\ c = newRow s em ph (Some (id tp)) secondary).
Proof.
  unfold ingest. destruct (addsInformation tp em ph s).
  - cbn [create snd contacts orNull]. rewrite in_app_iff. simpl.
    intuition.
  - intuition discriminate.
Qed.

Lemma merged_contacts (tp : ContactRecord) (stale : list ContactRecord)
    (s : Store) (c' : ContactRecord) :
  In c' (contacts (demoteStale tp stale s))
  <-> exists c, In c (contacts s)
                /\ c' = mergedRow (clock s) (id tp) (map id stale) c.
Proof.
  rewrite demoteStale_contacts, in_map_iff.
  split; intros [c [H1 H2]]; exists c; auto.
Qed.

(** ** Properties of the identify operation *)

Lemma runAlone_merge (em ph : option string) (s : Store) (tp : ContactRecord)
    (stale : list ContactRecord) :
  matchesOf em ph s <> [] ->
  primariesOf (implicated em ph s) = tp :: stale ->
  runAlone (mkRequest em ph) s
  = (respond tp (ingest tp em ph (demoteStale tp stale s)),
     ingest tp em ph (demoteStale tp stale s)).
Proof.
  intros Hm Hp. rewrite runAlone_sequential. unfold sequential.
  cbn [reqEmail reqPhoneNumber].
  destruct (matchesOf em ph s); [congruence|]. now rewrite Hp.
Qed.

Lemma runAlone_no_match (em ph : option string) (s : Store) :
  matchesOf em ph s = [] ->
  runAlone (mkRequest em ph) s
  = (Return (buildResponse (newRow s em ph None primary) []),
     mkStore (contacts s ++ [newRow s em ph None primary]) (nextId s + 1) (clock s)).
Proof.
  intros Hm. rewrite runAlone_sequential. unfold sequential.
  cbn [reqEmail reqPhoneNumber]. now rewrite Hm.
Qed.

Lemma runAlone_corrupt (em ph : option string) (s : Store) :
  matchesOf em ph s <> [] ->
  primariesOf (implicated em ph s) = [] ->
  runAlone (mkRequest em ph) s = (Throw TypeError, s).
Proof.
  intros Hm Hp. rewrite runAlone_sequential. unfold sequential.
  cbn [reqEmail reqPhoneNumber].
  destruct (matchesOf em ph s); [congruence|]. now rewrite Hp.
Qed.

(** *** The primary selector *)

Lemma pairLe_of_distinct (l : list ContactRecord) :
  StronglySorted (keyLe createdAt) l ->
  NoDup (map createdAt l) ->
  StronglySorted pairLe l.
Proof.
  induction 1 as [|x l Hs IH Hall]; intros Hnd; [constructor|].
  inversion Hnd as [|? ? Hx Hnd']; subst.
  constructor; [now apply IH|].
  rewrite Forall_forall in *. intros z Hz.
  specialize (Hall z Hz). unfold keyLe in Hall. left.
  assert (createdAt x <> createdAt z).
  { intros E. apply Hx. rewrite E. now apply in_map. }
  lia.
Qed.

(** C2, as the code has it: the primaries of the cluster are put in
    ascending order of created-at by a stable sort.  The result is a
    permutation of the cluster's primaries, ascending in created-at, and
    primaries with the same created-at keep the order in which the store
    returned them (the identifier is not compared).  When no two primaries
    share a created-at, the order is also the order by the pair
    (created-at, identifier). *)
Theorem primary_selector_stable (cluster : list ContactRecord) :
  Permutation (primariesOf cluster) (filter isPrimary cluster)
  /\ StronglySorted (keyLe createdAt) (primariesOf cluster)
  /\ (forall k,
        filter (fun c => createdAt c =? k) (primariesOf cluster)
        = filter (fun c => createdAt c =? k) (filter isPrimary cluster))
  /\ (NoDup (map createdAt (primariesOf cluster)) ->
      StronglySorted pairLe (primariesOf cluster)).
Proof.
  unfold primariesOf. repeat split.
  - apply sortBy_perm.
  - apply sortBy_sorted.
  - intros k. apply sortBy_stable.
  - apply pairLe_of_distinct, sortBy_sorted.
Qed.

Lemma primary_selector_stable_witness :
  NoDup (map createdAt (primariesOf [distinctLate; tieEarly]))
  /\ StronglySorted pairLe (primariesOf [distinctLate; tieEarly]).
Proof.
  assert (H : NoDup (map createdAt (primariesOf [distinctLate; tieEarly]))).
  { cbv. repeat constructor; simpl; intuition discriminate. }
  split; [exact H|].
  exact (proj2 (proj2 (proj2
           (primary_selector_stable [distinctLate; tieEarly]))) H).
Defined.

(** C2, as stated, fails: two primaries with the same created-at come back
    from the store with identifier 2 before identifier 1; the selector keeps
    that order, so the list is not ascending by (created-at, identifier) and
    identifier 2 becomes the true primary. *)
Lemma primary_selector_ignores_identifier :
  let s := mkStore [tieLate; tieEarly] 3 9 in
  let em := Some "a@x.com"%string in
  let ph := Some "111"%string in
  primariesOf (implicated em ph s) = [tieLate; tieEarly]
  /\ ~ StronglySorted pairLe (primariesOf (implicated em ph s))
  /\ exists r s',
       runAlone (mkRequest em ph) s = (Return r, s')
       /\ primaryContactId (contact r) = 2.
Proof.
  cbv zeta.
  assert (E : primariesOf
                (implicated (Some "a@x.com"%string) (Some "111"%string)
                   (mkStore [tieLate; tieEarly] 3 9))
              = [tieLate; tieEarly]) by reflexivity.
  split; [exact E|]. split.
  - rewrite E. intros H. inversion H as [|? ? _ Hall]; subst.
    inversion Hall as [|? ? Hle _]; subst.
    unfold pairLe in Hle. cbn in Hle. lia.
  - eexists. eexists. split; [vm_compute; reflexivity|reflexivity].
Qed.

(** *** New identity *)

(** C9: on an empty store, a payload with an email (a string that is not
    empty) and no phone number creates exactly one contact, a primary
    carrying that email; the response names it as primary, lists the email
    alone and has no secondary. *)
Theorem new_identity_on_empty_store (e : string) (nid now : Z) :
  e <> EmptyString ->
  runAlone (mkRequest (Some e) None) (mkStore [] nid now)
  = (Return (mkResponse (mkConsolidated nid [e] [] [])),
     mkStore [mkContact nid None (Some e) None primary now now None]
       (nid + 1) now).
Proof.
  intros He. rewrite runAlone_no_match.
  - unfold buildResponse, newRow, addIfTruthy. cbn [email phoneNumber id].
    apply truthy_Some in He. rewrite He. reflexivity.
  - unfold matchesOf.
    destruct (List.length (orConditions (Some e) None) =? 0)%nat; reflexivity.
Qed.

Lemma new_identity_on_empty_store_witness :
  runAlone (mkRequest (Some "a@x.com"%string) None) (mkStore [] 1 1000)
  = (Return (mkResponse (mkConsolidated 1 ["a@x.com"%string] [] [])),
     mkStore [mkContact 1 None (Some "a@x.com"%string) None primary 1000 1000 None]
       2 1000).
Proof.
  apply (new_identity_on_empty_store "a@x.com"%string 1 1000). discriminate.
Defined.

(** C10: with neither field given, the lookup returns the empty list and
    sends no statement (the world, with its trace, is unchanged), and
    [identifyContact] does not fail: in its transaction it creates a primary
    whose email and phone number are both null. *)
Theorem identify_without_fields (w : World) :
  (forall tx, findContactsByEmailOrPhone None None tx w = (Return [], w))
  /\ (let w1 := interfere w in
      let c := newRow (db w1) None None None primary in
      identifyContact (mkRequest None None) w
      = (Return (buildResponse c []),
         {| db := mkStore (contacts (db w1) ++ [c]) (nextId (db w1) + 1)
                    (clock (db w1));
            pending := pending w1;
            trace := trace w1 ++ [mkEvent true (SCreate primary)] |})
      /\ email c = None /\ phoneNumber c = None
      /\ linkPrecedence c = primary /\ deletedAt c = None).
Proof.
  split; [reflexivity|]. cbv zeta. split; [|now repeat split].
  unfold identifyContact. cbn [reqEmail reqPhoneNumber].
  unfold bind at 1. cbn [findContactsByEmailOrPhone orConditions app List.length Nat.eqb ret].
  unfold bind at 1. unfold transaction.
  destruct (interfere w) as [d p t]. reflexivity.
Qed.

(** *** The fact ingestor *)

Lemma addsInformation_newFact (tp : ContactRecord) (em ph : option string)
    (s : Store) :
  addsInformation tp em ph s = true
  <-> newFact email em (clusterOf [id tp] s)
      \/ newFact phoneNumber ph (clusterOf [id tp] s).
Proof.
  unfold addsInformation. cbv zeta.
  now rewrite orb_true_iff, !isNew_newFact.
Qed.

(** C3: on a call that matched, after the merge step a contact is created
    exactly when the submitted email is set and carried by no row of the
    fresh cluster, or the submitted phone number is set and carried by no
    row of it.  The table then grows by exactly one row: a secondary linked
    to the true primary, with the email and the phone number as submitted
    (a field not submitted stays null).  Otherwise the table is the merged
    one, with no row added. *)
Theorem fact_ingestion (em ph : option string) (s : Store)
    (tp : ContactRecord) (stale : list ContactRecord) :
  matchesOf em ph s <> [] ->
  primariesOf (implicated em ph s) = tp :: stale ->
  let merged := demoteStale tp stale s in
  let fresh := clusterOf [id tp] merged in
  let s' := snd (runAlone (mkRequest em ph) s) in
  let added :=
    mkContact (nextId s) ph em (Some (id tp)) secondary (clock s) (clock s) None in
  (newFact email em fresh \/ newFact phoneNumber ph fresh ->
   contacts s' = contacts merged ++ [added])
  /\ (~ (newFact email em fresh \/ newFact phoneNumber ph fresh) ->
      contacts s' = contacts merged).
Proof.
  intros Hm Hp. cbv zeta. rewrite (runAlone_merge em ph s tp stale Hm Hp).
  cbn [snd]. unfold ingest.
  destruct (demoteStale_fields tp stale s) as [Hn Hc].
  destruct (addsInformation tp em ph (demoteStale tp stale s)) eqn:E.
  - apply addsInformation_newFact in E. split; [|tauto].
    intros _. unfold create, newRow, orNull. cbn [snd contacts].
    now rewrite Hn, Hc.
  - split; [|reflexivity].
    intros H. apply addsInformation_newFact in H. congruence.
Qed.

Lemma fact_ingestion_witness :
  contacts (snd (runAlone (mkRequest (Some "a@x.com"%string) (Some "2"%string))
                   additiveStore))
  = contacts additiveStore
    ++ [mkContact 2 (Some "2"%string) (Some "a@x.com"%string) (Some 1) secondary
          50 50 None].
Proof.
  pose proof (fact_ingestion (Some "a@x.com"%string) (Some "2"%string)
                additiveStore
                (mkContact 1 (Some "1"%string) (Some "a@x.com"%string) None
                   primary 10 10 None) []) as H.
  cbv zeta in H.
  assert (Hm : matchesOf (Some "a@x.com"%string) (Some "2"%string) additiveStore
               <> []) by (vm_compute; discriminate).
  destruct (H Hm eq_refl) as [Hnew _].
  apply Hnew. right. exists "2"%string. split; [reflexivity|].
  split; [discriminate|].
  intros [c [Hin Hc]]. vm_compute in Hin.
  destruct Hin as [<-|[]]. discriminate.
Defined.

(** *** The response builder *)

Lemma skipSeen_In (seen vals : list string) (x : string) :
  In x (skipSeen seen vals) <-> In x vals /\ ~ In x seen.
Proof.
  revert seen. induction vals as [|v vs IH]; intros seen; simpl; [tauto|].
  destruct (inStr v seen) eqn:E.
  - apply inStr_In in E. rewrite IH. split; [tauto|].
    intros [[->|H] Hn]; [contradiction|tauto].
  - apply inStr_false in E. simpl. rewrite IH. simpl. split.
    + intros [->|[H1 H2]]; [tauto|]. tauto.
    + intros [[->|H] Hn]; [tauto|].
      destruct (string_dec v x) as [->|Hne]; [tauto|]. right. tauto.
Qed.

Lemma skipSeen_NoDup (seen vals : list string) : NoDup (skipSeen seen vals).
Proof.
  revert seen. induction vals as [|v vs IH]; intros seen; simpl; [constructor|].
  destruct (inStr v seen); [apply IH|].
  constructor; [|apply IH].
  rewrite skipSeen_In. simpl. tauto.
Qed.

(** The consolidated list has no duplicate, holds exactly the present
    values, and starts with the primary's own value when it is present. *)
Lemma consolidated_facts (field : ContactRecord -> option string)
    (p : ContactRecord) (ss : list ContactRecord) :
  NoDup (consolidated field p ss)
  /\ (forall x, In x (consolidated field p ss)
                <-> In x (presentValues field (p :: ss)))
  /\ (forall v, field p = Some v -> v <> EmptyString ->
        hd_error (consolidated field p ss) = Some v).
Proof.
  unfold consolidated. split; [apply skipSeen_NoDup|]. split.
  - intros x. rewrite skipSeen_In. simpl. tauto.
  - intros v Hv Hne. simpl. rewrite Hv.
    destruct (String.eqb_spec v EmptyString); [contradiction|]. reflexivity.
Qed.

(** C6: the response of a call that matched is the projection of the final
    cluster: [primaryContactId] is the true primary's identifier,
    [secondaryContactIds] lists the identifiers of the cluster's
    secondaries in the cluster's order, and [emails] and [phoneNumbers] are
    the values of the true primary's row followed by those of the
    secondaries in that order, present values only, each kept at its first
    occurrence. *)
Theorem response_projects_final_cluster (em ph : option string) (s s' : Store)
    (r : IdentifyResponse) :
  matchesOf em ph s <> [] ->
  runAlone (mkRequest em ph) s = (Return r, s') ->
  exists tp fp,
    hd_error (primariesOf (implicated em ph s)) = Some tp
    /\ find (fun c => id c =? id tp) (clusterOf [id tp] s') = Some fp
    /\ id fp = id tp
    /\ r = buildResponse fp (filter isSecondary (clusterOf [id tp] s'))
    /\ primaryContactId (contact r) = id tp
    /\ secondaryContactIds (contact r)
       = map id (filter isSecondary (clusterOf [id tp] s'))
    /\ emails (contact r)
       = consolidated email fp (filter isSecondary (clusterOf [id tp] s'))
    /\ phoneNumbers (contact r)
       = consolidated phoneNumber fp (filter isSecondary (clusterOf [id tp] s')).
Proof.
  intros Hm Hrun.
  destruct (primariesOf (implicated em ph s)) as [|tp stale] eqn:Hp.
  - rewrite (runAlone_corrupt em ph s Hm Hp) in Hrun. discriminate.
  - rewrite (runAlone_merge em ph s tp stale Hm Hp) in Hrun.
    injection Hrun as Hr Hs. subst s'.
    unfold respond in Hr. cbv zeta in Hr.
    destruct (find _ _) as [fp|] eqn:F; [|discriminate].
    injection Hr as <-.
    exists tp, fp. split; [reflexivity|]. split; [exact F|].
    apply find_some in F. destruct F as [_ F]. apply Z.eqb_eq in F.
    split; [exact F|]. split; [reflexivity|].
    rewrite buildResponse_consolidated. cbn. auto.
Qed.

Lemma response_projects_final_cluster_witness :
  exists tp fp,
    hd_error (primariesOf (implicated (Some "a@x.com"%string) (Some "2"%string)
                             additiveStore)) = Some tp
    /\ find (fun c => id c =? id tp)
         (clusterOf [id tp]
            (snd (runAlone (mkRequest (Some "a@x.com"%string) (Some "2"%string))
                    additiveStore))) = Some fp
    /\ emails (contact (buildResponse fp
         (filter isSecondary
            (clusterOf [id tp]
               (snd (runAlone (mkRequest (Some "a@x.com"%string) (Some "2"%string))
                       additiveStore))))))
       = ["a@x.com"%string].
Proof.
  assert (Hm : matchesOf (Some "a@x.com"%string) (Some "2"%string) additiveStore
               <> []) by (vm_compute; discriminate).
  destruct (response_projects_final_cluster
              (Some "a@x.com"%string) (Some "2"%string) additiveStore
              (snd (runAlone (mkRequest (Some "a@x.com"%string) (Some "2"%string))
                      additiveStore))
              (mkResponse (mkConsolidated 1 ["a@x.com"%string]
                             ["1"%string; "2"%string] [2]))
              Hm eq_refl)
    as [tp [fp [H1 [H2 [H3 [H4 [H5 [H6 [H7 H8]]]]]]]]].
  exists tp, fp. split; [exact H1|]. split; [exact H2|].
  rewrite <- H4. reflexivity.
Defined.

(** *** The cluster merger *)

Lemma merged_ids (tp : ContactRecord) (stale : list ContactRecord) (s : Store) :
  map id (contacts (demoteStale tp stale s)) = map id (contacts s).
Proof.
  rewrite demoteStale_contacts, map_map. apply map_ext.
  intros c. apply mergedRow_kept.
Qed.

Lemma ingest_ids (tp : ContactRecord) (em ph : option string) (s : Store) :
  map id (contacts (ingest tp em ph s)) = map id (contacts s)
  \/ map id (contacts (ingest tp em ph s)) = map id (contacts s) ++ [nextId s].
Proof.
  unfold ingest. destruct (addsInformation tp em ph s); [right|now left].
  cbn [create snd contacts]. now rewrite map_app.
Qed.

Lemma NoDup_snoc_fresh (l : list Z) (n : Z) :
  NoDup l -> (forall x, In x l -> x < n) -> NoDup (l ++ [n]).
Proof.
  intros Hnd Hlt. apply NoDup_app; [exact Hnd|repeat constructor; simpl; tauto|].
  intros x Hx [E|[]]. subst x. specialize (Hlt _ Hx). lia.
Qed.

Lemma merge_uniqueIds (tp : ContactRecord) (stale : list ContactRecord)
    (em ph : option string) (s : Store) :
  uniqueIds s -> idsBelowNext s ->
  uniqueIds (ingest tp em ph (demoteStale tp stale s)).
Proof.
  intros Hu Hb. unfold uniqueIds in *.
  destruct (demoteStale_fields tp stale s) as [Hn _].
  destruct (ingest_ids tp em ph (demoteStale tp stale s)) as [->| ->];
    rewrite merged_ids; [exact Hu|].
  rewrite Hn. apply NoDup_snoc_fresh; [exact Hu|].
  intros x Hx. apply in_map_iff in Hx. destruct Hx as [c [<- Hc]]. now apply Hb.
Qed.

(** The row of the true primary after the merge: still there, still a
    primary, not deleted. *)
Lemma truePrimary_survives (em ph : option string) (s : Store)
    (tp : ContactRecord) (stale : list ContactRecord) :
  uniqueIds s ->
  primariesOf (implicated em ph s) = tp :: stale ->
  exists tp',
    tp' = mergedRow (clock s) (id tp) (map id stale) tp
    /\ In tp' (contacts (demoteStale tp stale s))
    /\ id tp' = id tp /\ linkPrecedence tp' = primary /\ deletedAt tp' = None.
Proof.
  intros Hu Hp.
  destruct (primaries_facts em ph s tp stale Hp tp (or_introl eq_refl))
    as [_ [Hin [Hd Hl]]].
  pose proof (truePrimary_not_stale em ph s tp stale Hu Hp) as Hns.
  exists (mergedRow (clock s) (id tp) (map id stale) tp).
  split; [reflexivity|]. split.
  { apply merged_contacts. now exists tp. }
  destruct (mergedRow_kept (clock s) (id tp) (map id stale) tp)
    as [Hi [_ [_ [Hdel _]]]].
  split; [exact Hi|]. split; [|congruence].
  destruct (mergedRow_cases (clock s) (id tp) (map id stale) tp)
    as [[H _]|[[_ [_ [_ ->]]]|[_ [_ ->]]]]; [contradiction| |]; assumption.
Qed.

(** A stale primary after the merge: a secondary of the true primary. *)
Lemma stale_demoted (em ph : option string) (s : Store)
    (tp : ContactRecord) (stale : list ContactRecord) (p : ContactRecord) :
  primariesOf (implicated em ph s) = tp :: stale ->
  In p stale ->
  exists p',
    In p' (contacts (demoteStale tp stale s))
    /\ id p' = id p /\ linkPrecedence p' = secondary
    /\ linkedId p' = Some (id tp) /\ deletedAt p' = None.
Proof.
  intros Hp Hin.
  destruct (primaries_facts em ph s tp stale Hp p (or_intror Hin))
    as [_ [Hc [Hd _]]].
  exists (mergedRow (clock s) (id tp) (map id stale) p).
  split. { apply merged_contacts. now exists p. }
  destruct (mergedRow_cases (clock s) (id tp) (map id stale) p)
    as [[_ ->]|[[H _]|[H _]]].
  - now repeat split.
  - exfalso. apply H. now apply in_map.
  - exfalso. apply H. now apply in_map.
Qed.

(** C1: when the payload implicates the primaries [tp :: stale] (oldest
    first), the call returns a response; [tp] has the earliest created-at;
    its row is still a primary afterwards and it is the only primary among
    the rows of the implicated clusters; every other implicated primary is
    now a secondary whose [linkedId] is [tp]'s identifier; the response
    names [tp] as primary and lists the demoted ones among the
    secondaries. *)
Theorem merge_keeps_oldest_primary (em ph : option string) (s : Store)
    (tp : ContactRecord) (stale : list ContactRecord) :
  uniqueIds s -> idsBelowNext s ->
  primariesOf (implicated em ph s) = tp :: stale ->
  exists r s',
    runAlone (mkRequest em ph) s = (Return r, s')
    /\ uniqueIds s'
    /\ primaryContactId (contact r) = id tp
    /\ (forall p, In p stale -> createdAt tp <= createdAt p)
    /\ (exists tp', In tp' (contacts s') /\ id tp' = id tp
                    /\ linkPrecedence tp' = primary)
    /\ (forall c', In c' (contacts s') ->
                   In (id c') (map id (implicated em ph s)) ->
                   linkPrecedence c' = primary -> id c' = id tp)
    /\ (forall p, In p stale ->
          exists p', In p' (contacts s') /\ id p' = id p
                     /\ linkPrecedence p' = secondary
                     /\ linkedId p' = Some (id tp))
    /\ (forall p, In p stale -> In (id p) (secondaryContactIds (contact r))).
Proof.
  intros Hu Hb Hp.
  pose proof (primaries_nonempty_matches em ph s tp stale Hp) as Hm.
  rewrite (runAlone_merge em ph s tp stale Hm Hp).
  set (merged := demoteStale tp stale s).
  set (s' := ingest tp em ph merged).
  destruct (truePrimary_survives em ph s tp stale Hu Hp)
    as [tp' [Etp [Htp1 [Htp2 [Htp3 Htp4]]]]].
  fold merged in Htp1.
  assert (Hsub : forall c, In c (contacts merged) -> In c (contacts s')).
  { intros c Hc. apply ingest_contacts. now left. }
  assert (Hcl : forall c, In c (contacts merged) -> deletedAt c = None ->
                  (id c = id tp \/ linkedId c = Some (id tp)) ->
                  In c (clusterOf [id tp] s')).
  { intros c Hc Hd Hor. apply clusterOf_In. split; [now apply Hsub|].
    split; [exact Hd|]. destruct Hor as [E|E].
    - left. left. congruence.
    - right. exists (id tp). split; [exact E|now left]. }
  assert (Hfind : exists fp, find (fun c => id c =? id tp) (clusterOf [id tp] s')
                             = Some fp).
  { apply (find_exists _ _ tp').
    - apply Hcl; auto.
    - now apply Z.eqb_eq. }
  destruct Hfind as [fp Hfp].
  exists (buildResponse fp (filter isSecondary (clusterOf [id tp] s'))), s'.
  split. { unfold respond. cbv zeta. now rewrite Hfp. }
  split. { now apply merge_uniqueIds. }
  split.
  { cbn. apply find_some in Hfp. destruct Hfp as [_ E]. now apply Z.eqb_eq in E. }
  split. { now apply (truePrimary_oldest (implicated em ph s)). }
  split. { exists tp'. auto. }
  split.
  { intros c' Hc' Hid Hl.
    apply ingest_contacts in Hc'. destruct Hc' as [Hc'|[_ ->]].
    - apply merged_contacts in Hc'. destruct Hc' as [c [Hc ->]].
      destruct (mergedRow_kept (clock s) (id tp) (map id stale) c) as [Hi _].
      rewrite Hi in *.
      apply in_map_iff in Hid. destruct Hid as [c0 [E0 Hc0]].
      assert (c0 = c).
      { apply (unique_row (contacts s)); auto.
        now apply (implicated_In em ph s). }
      subst c0.
      destruct (mergedRow_cases (clock s) (id tp) (map id stale) c)
        as [[_ E]|[[Hn [_ [_ E]]]|[Hn [_ E]]]]; rewrite E in Hl.
      + discriminate.
      + cbn in Hl.
        assert (Hin : In c (tp :: stale)).
        { rewrite <- Hp. apply primariesOf_In. now split. }
        destruct Hin as [<-|Hin]; [reflexivity|].
        exfalso. apply Hn. now apply in_map.
      + assert (Hin : In c (tp :: stale)).
        { rewrite <- Hp. apply primariesOf_In. now split. }
        destruct Hin as [<-|Hin]; [reflexivity|].
        exfalso. apply Hn. now apply in_map.
    - discriminate. }
  split.
  { intros p Hin.
    destruct (stale_demoted em ph s tp stale p Hp Hin)
      as [p' [H1 [H2 [H3 [H4 _]]]]].
    exists p'. fold merged in H1. auto. }
  intros p Hin.
  destruct (stale_demoted em ph s tp stale p Hp Hin)
    as [p' [H1 [H2 [H3 [H4 H5]]]]].
  fold merged in H1. cbn. rewrite <- H2. apply in_map.
  apply filter_In. split; [|now apply isSecondary_true].
  apply Hcl; auto.
Qed.

Lemma twoClusters_wellFormed :
  uniqueIds twoClusters /\ idsBelowNext twoClusters
  /\ linksBelowNext twoClusters /\ directLinks twoClusters.
Proof.
  split; [|split; [|split]].
  - unfold uniqueIds. cbn.
    repeat (constructor; [simpl; intuition discriminate|]). constructor.
  - intros c [<-|[<-|[<-|[]]]]; cbn; lia.
  - intros c l [<-|[<-|[<-|[]]]]; cbn; intros E; inversion E; lia.
  - intros c q l [<-|[<-|[<-|[]]]]; cbn; intros _ E; inversion E; subst l.
    intros [<-|[<-|[<-|[]]]]; cbn; intros E'; try discriminate. reflexivity.
Qed.

Lemma merge_keeps_oldest_primary_witness :
  exists r s',
    runAlone (mkRequest (Some "a@x.com"%string) (Some "111"%string)) twoClusters
    = (Return r, s')
    /\ primaryContactId (contact r) = 1
    /\ In 2 (secondaryContactIds (contact r)).
Proof.
  destruct twoClusters_wellFormed as [Hu [Hb _]].
  destruct (merge_keeps_oldest_primary
              (Some "a@x.com"%string) (Some "111"%string) twoClusters
              rowA [rowB] Hu Hb eq_refl)
    as [r [s' [H1 [_ [H2 [_ [_ [_ [_ H3]]]]]]]]].
  exists r, s'. split; [exact H1|]. split; [exact H2|].
  apply (H3 rowB). now left.
Defined.

(** *** Links after the merge *)

Lemma directLinks_no_match (em ph : option string) (s : Store) :
  idsBelowNext s -> linksBelowNext s -> directLinks s ->
  directLinks (mkStore (contacts s ++ [newRow s em ph None primary])
                 (nextId s + 1) (clock s)).
Proof.
  intros Hb Hl Hd c q l Hc Hdel Hlink Hq Hid. cbn [contacts] in Hc, Hq.
  apply in_app_iff in Hc. apply in_app_iff in Hq.
  destruct Hq as [Hq|[<-|[]]]; [|reflexivity].
  destruct Hc as [Hc|[<-|[]]]; [|discriminate].
  now apply (Hd c q l).
Qed.

Lemma directLinks_merge (em ph : option string) (s : Store)
    (tp : ContactRecord) (stale : list ContactRecord) :
  uniqueIds s -> idsBelowNext s -> linksBelowNext s ->
  primariesOf (implicated em ph s) = tp :: stale ->
  directLinks s ->
  directLinks (ingest tp em ph (demoteStale tp stale s)).
Proof.
  intros Hu Hb Hl Hp Hd.
  destruct (demoteStale_fields tp stale s) as [Hn Hck].
  destruct (primaries_facts em ph s tp stale Hp tp (or_introl eq_refl))
    as [_ [Htp [_ Htpl]]].
  pose proof (truePrimary_not_stale em ph s tp stale Hu Hp) as Hns.
  (* a row of the new table whose identifier is the true primary's is a
     primary *)
  assert (Hroot : forall q, In q (contacts (ingest tp em ph (demoteStale tp stale s))) ->
                    id q = id tp -> linkPrecedence q = primary).
  { intros q Hq Hid. apply ingest_contacts in Hq. destruct Hq as [Hq|[_ ->]].
    - apply merged_contacts in Hq. destruct Hq as [q0 [Hq0 ->]].
      destruct (mergedRow_kept (clock s) (id tp) (map id stale) q0) as [Hi _].
      rewrite Hi in Hid.
      assert (q0 = tp) by (apply (unique_row (contacts s)); auto). subst q0.
      destruct (truePrimary_survives em ph s tp stale Hu Hp)
        as [tp' [-> [_ [_ [H _]]]]]. exact H.
    - cbn in Hid. rewrite Hn in Hid. specialize (Hb tp Htp). lia. }
  intros c q l Hc Hdel Hlink Hq Hid.
  apply ingest_contacts in Hc. destruct Hc as [Hc|[_ ->]].
  - apply merged_contacts in Hc. destruct Hc as [c0 [Hc0 ->]].
    destruct (mergedRow_cases (clock s) (id tp) (map id stale) c0)
      as [[_ E]|[[_ [_ [_ E]]]|[Hn0 [Hno E]]]]; rewrite E in Hlink, Hdel.
    + cbn in Hlink. injection Hlink as <-. now apply Hroot.
    + cbn in Hlink. injection Hlink as <-. now apply Hroot.
    + apply ingest_contacts in Hq. destruct Hq as [Hq|[_ ->]].
      * apply merged_contacts in Hq. destruct Hq as [q0 [Hq0 ->]].
        destruct (mergedRow_kept (clock s) (id tp) (map id stale) q0) as [Hi _].
        rewrite Hi in Hid.
        pose proof (Hd c0 q0 l Hc0 Hdel Hlink Hq0 Hid) as Hprim.
        destruct (mergedRow_cases (clock s) (id tp) (map id stale) q0)
          as [[Hin _]|[[_ [_ [_ ->]]]|[_ [_ ->]]]]; [|exact Hprim|exact Hprim].
        exfalso. apply Hno. split; [|exact Hdel].
        exists l. split; [exact Hlink|]. now rewrite <- Hid.
      * cbn in Hid. rewrite Hn in Hid.
        specialize (Hl c0 l Hc0 Hlink). lia.
  - cbn in Hlink. injection Hlink as <-. now apply Hroot.
Qed.

(** C5: after a call on a well-formed table, no row that is not deleted
    points at a primary demoted by the call, and every row that is not
    deleted and pointed at one now points at the true primary (so a
    secondary C of a demoted B ends with A's identifier).  A table in which
    no live row pointed at a secondary is still such a table after the
    call. *)
Theorem links_stay_direct (em ph : option string) (s : Store) :
  uniqueIds s -> idsBelowNext s -> linksBelowNext s ->
  (directLinks s -> directLinks (snd (runAlone (mkRequest em ph) s)))
  /\ (forall tp stale,
        primariesOf (implicated em ph s) = tp :: stale ->
        forall p, In p stale ->
          (forall c', In c' (contacts (snd (runAlone (mkRequest em ph) s))) ->
                      deletedAt c' = None -> linkedId c' <> Some (id p))
          /\ (forall c, In c (contacts s) -> deletedAt c = None ->
                        linkedId c = Some (id p) ->
                exists c',
                  In c' (contacts (snd (runAlone (mkRequest em ph) s)))
                  /\ id c' = id c /\ linkedId c' = Some (id tp))).
Proof.
  intros Hu Hb Hl. split.
  - intros Hd.
    destruct (matchesOf em ph s) as [|m ms] eqn:Hm.
    + rewrite (runAlone_no_match em ph s Hm). cbn [snd].
      now apply directLinks_no_match.
    + assert (Hne : matchesOf em ph s <> []) by (rewrite Hm; discriminate).
      destruct (primariesOf (implicated em ph s)) as [|tp stale] eqn:Hp.
      * now rewrite (runAlone_corrupt em ph s Hne Hp).
      * rewrite (runAlone_merge em ph s tp stale Hne Hp). cbn [snd].
        now apply directLinks_merge.
  - intros tp stale Hp p Hin.
    pose proof (primaries_nonempty_matches em ph s tp stale Hp) as Hm.
    rewrite (runAlone_merge em ph s tp stale Hm Hp). cbn [snd].
    pose proof (truePrimary_not_stale em ph s tp stale Hu Hp) as Hns.
    assert (Hpid : In (id p) (map id stale)) by now apply in_map.
    assert (Hne : id tp <> id p) by (intros E; apply Hns; now rewrite E).
    split.
    + intros c' Hc' Hdel Hlink.
      apply ingest_contacts in Hc'. destruct Hc' as [Hc'|[_ ->]].
      * apply merged_contacts in Hc'. destruct Hc' as [c [Hc ->]].
        destruct (mergedRow_cases (clock s) (id tp) (map id stale) c)
          as [[_ E]|[[_ [_ [_ E]]]|[_ [Hno E]]]]; rewrite E in Hlink, Hdel.
        -- cbn in Hlink. congruence.
        -- cbn in Hlink. congruence.
        -- apply Hno. split; [|exact Hdel]. now exists (id p).
      * cbn in Hlink. congruence.
    + intros c Hc Hdel Hlink.
      exists (mergedRow (clock s) (id tp) (map id stale) c).
      split. { apply ingest_contacts. left. apply merged_contacts. now exists c. }
      split. { apply mergedRow_kept. }
      destruct (mergedRow_cases (clock s) (id tp) (map id stale) c)
        as [[_ E]|[[_ [_ [_ E]]]|[_ [Hno E]]]]; rewrite E.
      * reflexivity.
      * reflexivity.
      * exfalso. apply Hno. split; [|exact Hdel]. now exists (id p).
Qed.

Lemma links_stay_direct_witness :
  directLinks (snd (runAlone (mkRequest (Some "a@x.com"%string) (Some "111"%string))
                      twoClusters))
  /\ exists c',
       In c' (contacts (snd (runAlone (mkRequest (Some "a@x.com"%string)
                                          (Some "111"%string)) twoClusters)))
       /\ id c' = 3 /\ linkedId c' = Some 1.
Proof.
  destruct twoClusters_wellFormed as [Hu [Hb [Hl Hd]]].
  destruct (links_stay_direct (Some "a@x.com"%string) (Some "111"%string)
              twoClusters Hu Hb Hl) as [H1 H2].
  split; [exact (H1 Hd)|].
  destruct (H2 rowA [rowB] eq_refl rowB (or_introl eq_refl)) as [_ H3].
  apply (H3 rowC); [cbn; tauto|reflexivity|reflexivity].
Defined.

(** *** Corrupt links *)

Lemma getRootPrimaryIds_skips (a b : list ContactRecord) (m : ContactRecord) :
  linkPrecedence m = secondary -> linkedId m = None ->
  getRootPrimaryIds (a ++ m :: b) = getRootPrimaryIds (a ++ b).
Proof.
  intros Hl Hn. unfold getRootPrimaryIds.
  rewrite !fold_left_app. simpl. now rewrite Hl, Hn.
Qed.

Lemma respond_returns (tp : ContactRecord) (s : Store) (c : ContactRecord) :
  In c (contacts s) -> id c = id tp -> deletedAt c = None ->
  exists r, respond tp s = Return r.
Proof.
  intros Hc Hid Hd. unfold respond. cbv zeta.
  destruct (find_exists (fun x => id x =? id tp) (clusterOf [id tp] s) c)
    as [fp ->].
  - apply clusterOf_In. split; [exact Hc|]. split; [exact Hd|].
    left. left. congruence.
  - now apply Z.eqb_eq.
  - eexists. reflexivity.
Qed.

(** A secondary without valid target is not a row the merge step writes. *)
Lemma invalid_member_unchanged (em ph : option string) (s : Store)
    (m : ContactRecord) :
  uniqueIds s -> In m (contacts s) -> linkPrecedence m = secondary ->
  ~ validTarget s m ->
  In m (contacts (snd (runAlone (mkRequest em ph) s))).
Proof.
  intros Hu Hm Hl Hnv.
  destruct (matchesOf em ph s) as [|m0 ms] eqn:Hmt.
  - rewrite (runAlone_no_match em ph s Hmt). cbn. apply in_app_iff. now left.
  - assert (Hne : matchesOf em ph s <> []) by (rewrite Hmt; discriminate).
    destruct (primariesOf (implicated em ph s)) as [|tp stale] eqn:Hp.
    + now rewrite (runAlone_corrupt em ph s Hne Hp).
    + rewrite (runAlone_merge em ph s tp stale Hne Hp). cbn [snd].
      apply ingest_contacts. left. apply merged_contacts. exists m.
      split; [exact Hm|].
      destruct (mergedRow_cases (clock s) (id tp) (map id stale) m)
        as [[Hin _]|[[_ [[l [Hk Hin]] _]]|[_ [_ E]]]]; [| |now rewrite E].
      * exfalso. apply in_map_iff in Hin. destruct Hin as [p [Ep Hpin]].
        destruct (primaries_facts em ph s tp stale Hp p (or_intror Hpin))
          as [_ [Hps [_ Hpl]]].
        assert (p = m) by (apply (unique_row (contacts s)); auto). congruence.
      * exfalso. apply Hnv. apply in_map_iff in Hin. destruct Hin as [p [Ep Hpin]].
        destruct (primaries_facts em ph s tp stale Hp p (or_intror Hpin))
          as [_ [Hps [Hpd Hpl]]].
        exists p. split; [exact Hps|]. split; [congruence|]. now split.
Qed.

(** C7, as the code has it: no consistency check is made on the link of a
    matched secondary.  A matched secondary whose [linkedId] is null
    contributes nothing to the root identifiers.  Whenever the implicated
    rows hold a primary, the run (in which the store answers every
    statement) raises nothing and returns a response naming the oldest
    implicated primary.  No fix is guessed: on a table with unique
    identifiers, a secondary without valid target is left exactly as it
    was.  What the call does when no primary is implicated is not part of
    this statement. *)
Theorem corrupt_member_is_not_checked (em ph : option string) (s : Store) :
  (forall a b m, linkPrecedence m = secondary -> linkedId m = None ->
     getRootPrimaryIds (a ++ m :: b) = getRootPrimaryIds (a ++ b))
  /\ (forall tp stale,
        primariesOf (implicated em ph s) = tp :: stale ->
        exists r s',
          runAlone (mkRequest em ph) s = (Return r, s')
          /\ primaryContactId (contact r) = id tp)
  /\ (uniqueIds s ->
      forall m, In m (contacts s) -> linkPrecedence m = secondary ->
        ~ validTarget s m ->
        In m (contacts (snd (runAlone (mkRequest em ph) s)))).
Proof.
  split; [apply getRootPrimaryIds_skips|]. split.
  - intros tp stale Hp.
    pose proof (primaries_nonempty_matches em ph s tp stale Hp) as Hne.
    rewrite (runAlone_merge em ph s tp stale Hne Hp).
    destruct (primaries_facts em ph s tp stale Hp tp (or_introl eq_refl))
      as [_ [Hin [Hd _]]].
    destruct (mergedRow_kept (clock s) (id tp) (map id stale) tp)
      as [Hi [_ [_ [Hdel _]]]].
    unfold respond. cbv zeta.
    destruct (find_exists (fun x => id x =? id tp)
                (clusterOf [id tp] (ingest tp em ph (demoteStale tp stale s)))
                (mergedRow (clock s) (id tp) (map id stale) tp)) as [fp Hfp].
    + apply clusterOf_In. split.
      * apply ingest_contacts. left. apply merged_contacts. now exists tp.
      * split; [congruence|]. left. left. symmetry. exact Hi.
    + apply Z.eqb_eq. exact Hi.
    + rewrite Hfp. eexists. eexists. split; [reflexivity|].
      cbn. apply find_some in Hfp. destruct Hfp as [_ E]. now apply Z.eqb_eq in E.
  - intros Hu m Hm Hl Hnv. now apply invalid_member_unchanged.
Qed.

Lemma corrupt_member_is_not_checked_witness :
  (exists r s',
     runAlone (mkRequest (Some "e@x.com"%string) (Some "555"%string)) corruptStore
     = (Return r, s')
     /\ primaryContactId (contact r) = 2)
  /\ In orphan
       (contacts (snd (runAlone (mkRequest (Some "e@x.com"%string)
                                   (Some "555"%string)) corruptStore))).
Proof.
  destruct (corrupt_member_is_not_checked
              (Some "e@x.com"%string) (Some "555"%string) corruptStore)
    as [_ [H1 H2]].
  split.
  - exact (H1 loneRep [] eq_refl).
  - apply H2.
    + unfold uniqueIds. cbn.
      repeat (constructor; [simpl; intuition discriminate|]). constructor.
    + cbn. tauto.
    + reflexivity.
    + intros [q [_ [H _]]]. discriminate.
Defined.

(** C7, as stated, fails: the payload matches a secondary that has no link
    at all, next to a sound primary; the call raises nothing, returns a
    response and adds a row. *)
Lemma corrupt_member_raises_nothing :
  In orphan (matchesOf (Some "e@x.com"%string) (Some "555"%string) corruptStore)
  /\ linkPrecedence orphan = secondary
  /\ ~ validTarget corruptStore orphan
  /\ runAlone (mkRequest (Some "e@x.com"%string) (Some "555"%string)) corruptStore
     = (Return (mkResponse (mkConsolidated 2 ["e@x.com"%string] ["555"%string] [3])),
        mkStore [orphan; loneRep;
                 mkContact 3 (Some "555"%string) (Some "e@x.com"%string) (Some 2)
                   secondary 100 100 None] 4 100).
Proof.
  split; [vm_compute; tauto|]. split; [reflexivity|]. split.
  - intros [q [_ [H _]]]. discriminate.
  - vm_compute. reflexivity.
Qed.

(** *** Idempotence *)

Lemma respond_id (a b : ContactRecord) (s : Store) :
  id a = id b -> respond a s = respond b s.
Proof. intros E. unfold respond. now rewrite E. Qed.

Lemma singleton_of_unique {A B} (f : A -> B) (l : list A) (t : A) :
  NoDup (map f l) -> (forall x, In x l -> x = t) -> In t l -> l = [t].
Proof.
  intros Hnd Hall Hin. destruct l as [|a [|b l]].
  - destruct Hin.
  - now rewrite (Hall a (or_introl eq_refl)).
  - exfalso.
    rewrite (Hall a (or_introl eq_refl)) in Hnd.
    rewrite (Hall b (or_intror (or_introl eq_refl))) in Hnd.
    simpl in Hnd. inversion Hnd as [|? ? Hx _]. apply Hx. now left.
Qed.

(** On a settled table the call changes nothing and answers from the
    cluster of the settled primary. *)
Lemma settled_run (em ph : option string) (tid : Z) (s : Store)
    (tp : ContactRecord) :
  settled em ph tid s -> id tp = tid ->
  runAlone (mkRequest em ph) s = (respond tp s, s).
Proof.
  intros [Hu Hun Hroots [m [Hm Hroot]] [t [Ht [Hid [Hl Hd]]]] Hknown] Htp.
  assert (Hne : matchesOf em ph s <> []).
  { intros E. rewrite E in Hm. destruct Hm. }
  assert (Hin : In t (primariesOf (implicated em ph s))).
  { apply primariesOf_In. split; [|exact Hl].
    unfold implicated. apply clusterOf_In. split; [exact Ht|].
    split; [exact Hd|]. left. apply getRootPrimaryIds_In.
    exists m. split; [exact Hm|]. now rewrite Hid. }
  assert (Hall : forall q, In q (primariesOf (implicated em ph s)) -> q = t).
  { intros q Hq. apply primariesOf_In in Hq. destruct Hq as [Hq Hql].
    unfold implicated in Hq. apply clusterOf_In in Hq.
    destruct Hq as [Hqc [Hqd Hroot']].
    apply (unique_row (contacts s)); auto. rewrite Hid.
    destruct Hroot' as [Hr|[l [Hlk _]]].
    - apply getRootPrimaryIds_In in Hr. destruct Hr as [m' [Hm' Hr']].
      now apply (Hroots m' (id q) q).
    - rewrite (Hun q Hqc Hql) in Hlk. discriminate. }
  pose proof (singleton_of_unique id _ t (primaries_ids_NoDup em ph s Hu) Hall Hin)
    as Hp.
  rewrite (runAlone_merge em ph s t [] Hne Hp).
  change (demoteStale t [] s) with s.
  unfold ingest. rewrite (Hknown t Hid).
  f_equal. apply respond_id. congruence.
Qed.

Lemma settled_laterClock (em ph : option string) (tid now : Z) (s : Store) :
  settled em ph tid s -> settled em ph tid (laterClock now s).
Proof. intros [H1 H2 H3 H4 H5 H6]. constructor; assumption. Qed.

Lemma answers_truthy_row (em ph : option string) (c : ContactRecord) :
  truthy em || truthy ph = true ->
  email c = em -> phoneNumber c = ph -> deletedAt c = None ->
  answers em ph c.
Proof.
  intros Ht He Hp Hd. split; [exact Hd|].
  apply orb_true_iff in Ht. tauto.
Qed.

Lemma addsInformation_false (tp : ContactRecord) (em ph : option string)
    (s : Store) :
  (forall e, em = Some e -> e <> EmptyString ->
             hasValue email e (clusterOf [id tp] s)) ->
  (forall p, ph = Some p -> p <> EmptyString ->
             hasValue phoneNumber p (clusterOf [id tp] s)) ->
  addsInformation tp em ph s = false.
Proof.
  intros He Hp.
  destruct (addsInformation tp em ph s) eqn:E; [|reflexivity].
  apply addsInformation_newFact in E.
  destruct E as [[x [E1 [E2 E3]]]|[x [E1 [E2 E3]]]]; exfalso; apply E3; auto.
Qed.

Lemma addsInformation_id (a b : ContactRecord) (em ph : option string)
    (s : Store) :
  id a = id b -> addsInformation a em ph s = addsInformation b em ph s.
Proof. intros E. unfold addsInformation. now rewrite E. Qed.

(** After the creation of a new primary the table is settled under it. *)
Lemma settled_after_create (em ph : option string) (s : Store) :
  uniqueIds s -> idsBelowNext s -> linksBelowNext s -> primariesUnlinked s ->
  truthy em || truthy ph = true ->
  matchesOf em ph s = [] ->
  settled em ph (nextId s)
    (mkStore (contacts s ++ [newRow s em ph None primary]) (nextId s + 1) (clock s)).
Proof.
  intros Hu Hb Hl Hun Ht Hm.
  set (new := newRow s em ph None primary).
  set (s' := mkStore (contacts s ++ [new]) (nextId s + 1) (clock s)).
  assert (Hnew : In new (matchesOf em ph s')).
  { apply matchesOf_In. split.
    - cbn. apply in_app_iff. right. now left.
    - now apply answers_truthy_row. }
  assert (Hold : forall m, In m (matchesOf em ph s') -> m = new).
  { intros m Hin. apply matchesOf_In in Hin. destruct Hin as [Hin Ha].
    cbn in Hin. apply in_app_iff in Hin. destruct Hin as [Hin|[<-|[]]]; [|reflexivity].
    exfalso. assert (H : In m (matchesOf em ph s)) by (apply matchesOf_In; tauto).
    rewrite Hm in H. destruct H. }
  constructor.
  - unfold uniqueIds. cbn. rewrite map_app. cbn.
    apply NoDup_snoc_fresh; [exact Hu|].
    intros x Hx. apply in_map_iff in Hx. destruct Hx as [c [<- Hc]]. now apply Hb.
  - intros c Hc Hlp. cbn in Hc. apply in_app_iff in Hc.
    destruct Hc as [Hc|[<-|[]]]; [now apply Hun|reflexivity].
  - intros m x q Hin Hroot _ _ _ _.
    rewrite (Hold m Hin) in Hroot. cbn in Hroot. congruence.
  - exists new. split; [exact Hnew|reflexivity].
  - exists new. split; [|now repeat split].
    cbn. apply in_app_iff. right. now left.
  - intros t Hid.
    assert (Hcl : In new (clusterOf [id t] s')).
    { apply clusterOf_In. split; [cbn; apply in_app_iff; right; now left|].
      split; [reflexivity|]. left. left. now rewrite Hid. }
    apply addsInformation_false.
    + intros e -> _. now exists new.
    + intros p -> _. now exists new.
Qed.

Lemma answers_mergedRow (em ph : option string) (now tid : Z) (ids : list Z)
    (c : ContactRecord) :
  answers em ph (mergedRow now tid ids c) <-> answers em ph c.
Proof.
  unfold answers.
  destruct (mergedRow_kept now tid ids c) as [_ [-> [-> [-> _]]]]. tauto.
Qed.

Lemma mergedRow_primary (now tid : Z) (ids : list Z) (c : ContactRecord) :
  linkPrecedence (mergedRow now tid ids c) = primary ->
  linkPrecedence c = primary /\ ~ In (id c) ids.
Proof.
  destruct (mergedRow_cases now tid ids c)
    as [[_ ->]|[[Hn [_ [_ ->]]]|[Hn [_ ->]]]]; cbn; intros H;
    [discriminate|tauto|tauto].
Qed.

Lemma rootOf_mergedRow (now tid : Z) (ids : list Z) (c : ContactRecord) (x : Z) :
  (linkPrecedence c = primary -> linkedId c = None) ->
  deletedAt c = None ->
  rootOf (mergedRow now tid ids c) = Some x ->
  x = tid \/ (rootOf c = Some x /\ ~ In x ids).
Proof.
  intros Hun Hd.
  destruct (mergedRow_cases now tid ids c)
    as [[_ ->]|[[Hn [[l [Hl Hin]] [_ ->]]]|[Hn [Hno ->]]]].
  - cbn. intros E. left. congruence.
  - unfold rootOf. cbn.
    destruct (linkPrecedence c).
    + rewrite Hun in Hl by reflexivity. discriminate.
    + intros E. left. congruence.
  - intros E. right. split; [exact E|].
    unfold rootOf in E. destruct (linkPrecedence c).
    + injection E as <-. exact Hn.
    + intros Hin. apply Hno. split; [|exact Hd]. now exists x.
Qed.

Lemma rootOf_mergedRow_truePrimary (now tid : Z) (ids : list Z)
    (c : ContactRecord) :
  (linkPrecedence c = primary -> linkedId c = None) ->
  rootOf c = Some tid -> rootOf (mergedRow now tid ids c) = Some tid.
Proof.
  intros Hun Hroot.
  destruct (mergedRow_cases now tid ids c)
    as [[_ ->]|[[Hn [[l [Hl Hin]] [_ ->]]]|[Hn [Hno ->]]]].
  - reflexivity.
  - unfold rootOf. cbn. destruct (linkPrecedence c); [|reflexivity].
    rewrite Hun in Hl by reflexivity. discriminate.
  - exact Hroot.
Qed.

Lemma known_of_not_new (e : string) (vals : list string) :
  isNew (Some e) vals = false -> e <> EmptyString -> In e vals.
Proof.
  unfold isNew. intros H He. apply truthy_Some in He. rewrite He in H.
  simpl in H. apply negb_false_iff in H. now apply inStr_In.
Qed.

(** After the merge and the ingestion the table is settled under the true
    primary. *)
Lemma settled_after_merge (em ph : option string) (s : Store)
    (tp : ContactRecord) (stale : list ContactRecord) :
  uniqueIds s -> idsBelowNext s -> primariesUnlinked s ->
  primariesOf (implicated em ph s) = tp :: stale ->
  settled em ph (id tp) (ingest tp em ph (demoteStale tp stale s)).
Proof.
  intros Hu Hb Hun Hp.
  set (merged := demoteStale tp stale s).
  set (s' := ingest tp em ph merged).
  set (ids := map id stale).
  set (added := newRow merged em ph (Some (id tp)) secondary).
  destruct (primaries_facts em ph s tp stale Hp tp (or_introl eq_refl))
    as [Htpi [Htp [Htpd Htpl]]].
  pose proof (truePrimary_not_stale em ph s tp stale Hu Hp) as Hns.
  assert (Hrows : forall c', In c' (contacts s') ->
            (exists c, In c (contacts s)
                       /\ c' = mergedRow (clock s) (id tp) ids c)
            \/ (addsInformation tp em ph merged = true /\ c' = added)).
  { intros c' Hc'. apply ingest_contacts in Hc'. destruct Hc' as [Hc'|Hc'].
    - left. now apply merged_contacts.
    - now right. }
  assert (Hkeep : forall c, In c (contacts s) ->
            In (mergedRow (clock s) (id tp) ids c) (contacts s')).
  { intros c Hc. apply ingest_contacts. left. apply merged_contacts. now exists c. }
  assert (Hprims : forall q, In q (contacts s) -> deletedAt q = None ->
            linkPrecedence q = primary ->
            In (id q) (getRootPrimaryIds (matchesOf em ph s)) ->
            ~ In (id q) ids -> q = tp).
  { intros q Hq Hqd Hql Hroot Hnot.
    assert (Hin : In q (tp :: stale)).
    { rewrite <- Hp. apply primariesOf_In. split; [|exact Hql].
      unfold implicated. apply clusterOf_In. tauto. }
    destruct Hin as [<-|Hin]; [reflexivity|].
    exfalso. apply Hnot. now apply in_map. }
  constructor.
  - now apply merge_uniqueIds.
  - intros c' Hc' Hl. destruct (Hrows c' Hc') as [[c [Hc ->]]|[_ ->]];
      [|discriminate].
    destruct (mergedRow_cases (clock s) (id tp) ids c)
      as [[_ E]|[[_ [[l [Hlk _]] [_ E]]]|[_ [_ E]]]]; rewrite E in *.
    + discriminate.
    + cbn in Hl. rewrite (Hun c Hc Hl) in Hlk. discriminate.
    + now apply Hun.
  - intros m x q Hm Hroot Hq Hid Hql Hqd.
    apply matchesOf_In in Hm. destruct Hm as [Hm Ha].
    destruct (Hrows m Hm) as [[m0 [Hm0 ->]]|[_ ->]];
      [|cbn in Hroot; congruence].
    apply answers_mergedRow in Ha.
    assert (Hm0d : deletedAt m0 = None) by apply Ha.
    destruct (rootOf_mergedRow (clock s) (id tp) ids m0 x (Hun m0 Hm0) Hm0d Hroot)
      as [E|[Hr0 Hnot]]; [exact E|].
    destruct (Hrows q Hq) as [[q0 [Hq0 ->]]|[_ ->]]; [|discriminate].
    destruct (mergedRow_kept (clock s) (id tp) ids q0) as [Hi [_ [_ [Hdel _]]]].
    destruct (mergedRow_primary (clock s) (id tp) ids q0 Hql) as [Hq0l _].
    rewrite Hi in Hid. rewrite Hdel in Hqd.
    assert (q0 = tp).
    { apply Hprims; auto.
      - apply getRootPrimaryIds_In. exists m0. split.
        + apply matchesOf_In. tauto.
        + now rewrite Hid.
      - now rewrite Hid. }
    subst q0. now symmetry.
  - assert (Hroot : In (id tp) (getRootPrimaryIds (matchesOf em ph s))).
    { unfold implicated in Htpi. apply clusterOf_In in Htpi.
      destruct Htpi as [_ [_ [H|[l [Hlk _]]]]]; [exact H|].
      rewrite (Hun tp Htp Htpl) in Hlk. discriminate. }
    apply getRootPrimaryIds_In in Hroot. destruct Hroot as [m0 [Hm0 Hr0]].
    apply matchesOf_In in Hm0. destruct Hm0 as [Hm0 Ha].
    exists (mergedRow (clock s) (id tp) ids m0). split.
    + apply matchesOf_In. split; [now apply Hkeep|now apply answers_mergedRow].
    + apply rootOf_mergedRow_truePrimary; [now apply Hun|exact Hr0].
  - destruct (truePrimary_survives em ph s tp stale Hu Hp)
      as [tp' [_ [H1 [H2 [H3 H4]]]]].
    exists tp'. split; [|auto].
    apply ingest_contacts. now left.
  - intros t Hid. rewrite (addsInformation_id t tp em ph s' Hid).
    assert (Hcase :
      (forall e, em = Some e -> e <> EmptyString ->
                 hasValue email e (clusterOf [id tp] s'))
      /\ (forall p, ph = Some p -> p <> EmptyString ->
                    hasValue phoneNumber p (clusterOf [id tp] s'))).
    { destruct (addsInformation tp em ph merged) eqn:E.
      - assert (Hadd : In added (clusterOf [id tp] s')).
        { apply clusterOf_In. split.
          - apply ingest_contacts. right. now split.
          - split; [reflexivity|]. right. exists (id tp). split; [reflexivity|now left]. }
        split; intros v -> _; now exists added.
      - assert (Es : s' = merged) by (unfold s', ingest; now rewrite E).
        rewrite Es. unfold addsInformation in E. cbv zeta in E.
        apply orb_false_iff in E. destruct E as [E1 E2].
        split; intros v -> Hv.
        + apply clusterValues_In. now apply known_of_not_new.
        + apply clusterValues_In. now apply known_of_not_new. }
    destruct Hcase. now apply addsInformation_false.
Qed.

Lemma filter_none {A} (p : A -> bool) (l : list A) :
  (forall x, In x l -> p x = false) -> filter p l = [].
Proof.
  induction l as [|x l IH]; intros H; simpl; [reflexivity|].
  rewrite (H x (or_introl eq_refl)). apply IH. intros y Hy. apply H. now right.
Qed.

(** The cluster of a primary just created holds that primary alone. *)
Lemma cluster_of_new_primary (em ph : option string) (s : Store) :
  idsBelowNext s -> linksBelowNext s ->
  clusterOf [nextId s]
    (mkStore (contacts s ++ [newRow s em ph None primary]) (nextId s + 1) (clock s))
  = [newRow s em ph None primary].
Proof.
  intros Hb Hl. unfold clusterOf, findMany. cbn [contacts].
  rewrite filter_app, filter_none.
  - cbn. now rewrite Z.eqb_refl.
  - intros c Hc. unfold whereCluster.
    specialize (Hb c Hc). pose proof (Hl c) as Hl'.
    assert (E1 : inZ (id c) [nextId s] = false).
    { apply inZ_false. intros [E|[]]. lia. }
    assert (E2 : optZIn (linkedId c) [nextId s] = false).
    { destruct (linkedId c) as [l|] eqn:L; [|reflexivity].
      apply inZ_false. intros [E|[]]. specialize (Hl' l Hc eq_refl). lia. }
    rewrite E1, E2. apply andb_false_r.
Qed.

(** C4: on a well-formed table, for a payload with at least one field set
    (a string that is not empty), a second call with the same payload, at
    any later time, gives the same outcome as the first and leaves the table
    as the first call left it: no contact is added. *)
Theorem identify_idempotent (em ph : option string) (s : Store) (later : Z) :
  uniqueIds s -> idsBelowNext s -> linksBelowNext s -> primariesUnlinked s ->
  truthy em || truthy ph = true ->
  fst (runAlone (mkRequest em ph)
         (laterClock later (snd (runAlone (mkRequest em ph) s))))
  = fst (runAlone (mkRequest em ph) s)
  /\ contacts (snd (runAlone (mkRequest em ph)
                      (laterClock later (snd (runAlone (mkRequest em ph) s)))))
     = contacts (snd (runAlone (mkRequest em ph) s))
  /\ nextId (snd (runAlone (mkRequest em ph)
                    (laterClock later (snd (runAlone (mkRequest em ph) s)))))
     = nextId (snd (runAlone (mkRequest em ph) s)).
Proof.
  intros Hu Hb Hl Hun Ht.
  destruct (matchesOf em ph s) as [|m ms] eqn:Hm.
  - rewrite (runAlone_no_match em ph s Hm). cbn [fst snd].
    pose proof (settled_after_create em ph s Hu Hb Hl Hun Ht Hm) as Hs.
    apply (settled_laterClock em ph (nextId s) later) in Hs.
    rewrite (settled_run em ph (nextId s) _ (newRow s em ph None primary) Hs eq_refl).
    cbn [fst snd]. split; [|now split].
    unfold respond. cbv zeta.
    change (clusterOf [id (newRow s em ph None primary)] (laterClock later ?x))
      with (clusterOf [nextId s] x).
    rewrite (cluster_of_new_primary em ph s Hb Hl).
    cbn. now rewrite Z.eqb_refl.
  - assert (Hne : matchesOf em ph s <> []) by (rewrite Hm; discriminate).
    destruct (primariesOf (implicated em ph s)) as [|tp stale] eqn:Hp.
    + rewrite (runAlone_corrupt em ph s Hne Hp). cbn [fst snd].
      rewrite (runAlone_corrupt em ph (laterClock later s) Hne Hp).
      now repeat split.
    + rewrite (runAlone_merge em ph s tp stale Hne Hp). cbn [fst snd].
      pose proof (settled_after_merge em ph s tp stale Hu Hb Hun Hp) as Hs.
      apply (settled_laterClock em ph (id tp) later) in Hs.
      rewrite (settled_run em ph (id tp) _ tp Hs eq_refl).
      now repeat split.
Qed.

Lemma identify_idempotent_witness :
  fst (runAlone (mkRequest (Some "a@x.com"%string) (Some "111"%string))
         (laterClock 200
            (snd (runAlone (mkRequest (Some "a@x.com"%string) (Some "111"%string))
                    twoClusters))))
  = fst (runAlone (mkRequest (Some "a@x.com"%string) (Some "111"%string))
           twoClusters)
  /\ contacts
       (snd (runAlone (mkRequest (Some "a@x.com"%string) (Some "111"%string))
               (laterClock 200
                  (snd (runAlone (mkRequest (Some "a@x.com"%string)
                                    (Some "111"%string)) twoClusters)))))
     = contacts (snd (runAlone (mkRequest (Some "a@x.com"%string)
                                 (Some "111"%string)) twoClusters)).
Proof.
  destruct twoClusters_wellFormed as [Hu [Hb [Hl _]]].
  assert (Hun : primariesUnlinked twoClusters).
  { intros c [<-|[<-|[<-|[]]]]; cbn; intros E; try reflexivity; discriminate. }
  destruct (identify_idempotent (Some "a@x.com"%string) (Some "111"%string)
              twoClusters 200 Hu Hb Hl Hun eq_refl) as [H1 [H2 _]].
  split; [exact H1|exact H2].
Defined.

(** *** Creation on the no-match path, under any interleaving *)

Lemma interfere_trace (w : World) : trace (interfere w) = trace w.
Proof. unfold interfere. now destruct (pending w). Qed.

Section Emits.
Variable P : Event -> Prop.

Lemma emits_ret {A} (a : A) : emits P (ret a).
Proof. intros w. exists []. split; [now rewrite app_nil_r|constructor]. Qed.

Lemma emits_throw {A} (e : Exception) : emits P (@throw A e).
Proof. intros w. exists []. split; [now rewrite app_nil_r|constructor]. Qed.

Lemma emits_deref {A} (o : option A) : emits P (deref o).
Proof. destruct o; [apply emits_ret|apply emits_throw]. Qed.

Lemma emits_bind {A B} (m : M A) (k : A -> M B) :
  emits P m -> (forall a, emits P (k a)) -> emits P (bind m k).
Proof.
  intros Hm Hk w. unfold bind.
  destruct (Hm w) as [tr1 [E1 F1]].
  destruct (m w) as [[a|e] w1]; cbn [snd] in *.
  - destruct (Hk a w1) as [tr2 [E2 F2]].
    exists (tr1 ++ tr2). split.
    + now rewrite E2, E1, app_assoc.
    + now apply Forall_app.
  - now exists tr1.
Qed.

Lemma emits_statement {A} (tx : option TransactionClient)
    (q : Store -> A * Store) (ev : A -> Stmt) :
  (forall a, P (mkEvent (isSome tx) (ev a))) -> emits P (statement tx q ev).
Proof.
  intros H w. unfold statement.
  set (w1 := if isSome tx then w else interfere w).
  assert (Et : trace w1 = trace w).
  { unfold w1. destruct (isSome tx); [reflexivity|apply interfere_trace]. }
  destruct (q (db w1)) as [a s']. cbn [snd trace].
  exists [mkEvent (isSome tx) (ev a)]. split; [now rewrite Et|].
  constructor; [apply H|constructor].
Qed.

Lemma emits_transaction {A} (body : TransactionClient -> M A) :
  emits P (body txClient) -> emits P (transaction body).
Proof.
  intros H w. unfold transaction.
  destruct (H (interfere w)) as [tr [E F]].
  rewrite interfere_trace in E.
  destruct (body txClient (interfere w)) as [[a|e] w2]; cbn [snd trace] in *;
    now exists tr.
Qed.

Lemma emits_forEach {A} (xs : list A) (body : A -> M unit) :
  (forall x, emits P (body x)) -> emits P (forEach xs body).
Proof.
  intros H. induction xs as [|x xs IH]; simpl.
  - apply emits_ret.
  - apply emits_bind; [apply H|intros _; exact IH].
Qed.
End Emits.

Lemma findContactCluster_emits (ids : list Z) (tx : option TransactionClient) :
  emits noPrimaryCreated (findContactCluster ids tx).
Proof. apply emits_statement. reflexivity. Qed.

(** The merge path never creates a primary, whatever other requests do. *)
Lemma mergeAndRespond_emits (directMatches : list ContactRecord)
    (em ph : option string) :
  emits noPrimaryCreated (mergeAndRespond directMatches em ph).
Proof.
  unfold mergeAndRespond.
  apply emits_bind; [apply findContactCluster_emits|]. intros cluster.
  apply emits_bind.
  - apply emits_transaction.
    apply emits_bind.
    + destruct (0 <? _)%nat; [|apply emits_ret].
      apply emits_bind; [apply emits_deref|]. intros tp.
      apply emits_bind.
      * unfold demotePrimaryToSecondary.
        apply emits_bind; [apply emits_statement; reflexivity|].
        intros _. apply emits_ret.
      * intros _. apply emits_forEach. intros x.
        unfold relinkSecondaries.
        apply emits_bind; [apply emits_statement; reflexivity|].
        intros _. apply emits_ret.
    + intros _. apply emits_bind; [apply emits_deref|]. intros tp.
      apply emits_bind; [apply findContactCluster_emits|]. intros fresh.
      destruct (_ || _); [|apply emits_ret].
      apply emits_bind; [|intros _; apply emits_ret].
      apply emits_statement. reflexivity.
  - intros _. apply emits_bind; [apply emits_deref|]. intros tp.
    apply emits_bind; [apply findContactCluster_emits|]. intros final.
    apply emits_bind; [apply emits_deref|]. intros fp. apply emits_ret.
Qed.

Lemma lookup_run (em ph : option string) (tx : option TransactionClient)
    (w : World) :
  exists ms w',
    findContactsByEmailOrPhone em ph tx w = (Return ms, w')
    /\ trace w' = trace w ++ lookupEvents em ph (isSome tx) (List.length ms).
Proof.
  unfold findContactsByEmailOrPhone, lookupEvents.
  destruct (List.length (orConditions em ph) =? 0)%nat.
  - exists [], w. split; [reflexivity|now rewrite app_nil_r].
  - unfold statement.
    set (w1 := if isSome tx then w else interfere w).
    assert (Et : trace w1 = trace w).
    { unfold w1. destruct (isSome tx); [reflexivity|apply interfere_trace]. }
    eexists. eexists. split; [reflexivity|]. cbn [trace]. now rewrite Et.
Qed.

Lemma createPrimaryContact_run (em ph : option string)
    (tx : option TransactionClient) (w : World) :
  exists c w',
    createPrimaryContact em ph tx w = (Return c, w')
    /\ trace w' = trace w ++ [mkEvent (isSome tx) (SCreate primary)].
Proof.
  unfold createPrimaryContact, statement.
  set (w1 := if isSome tx then w else interfere w).
  assert (Et : trace w1 = trace w).
  { unfold w1. destruct (isSome tx); [reflexivity|apply interfere_trace]. }
  eexists. eexists. split; [reflexivity|]. cbn [trace]. now rewrite Et.
Qed.

(** For every schedule of other requests, the statements a call sends take
    one of four shapes.  (1) The first lookup finds a match: the merge path
    follows and creates no primary.  (2) The first lookup and the re-check
    inside the transaction find nothing: the primary is created inside that
    transaction.  (3) The re-check finds a match and the lookup after the
    transaction finds nothing: the primary is created outside any
    transaction.  (4) The re-check and the lookup after the transaction
    find a match: the merge path follows and creates no primary. *)
Lemma creation_on_no_match_path (payload : IdentifyRequest) (w : World) :
  exists tr,
    trace (snd (identifyContact payload w)) = trace w ++ tr
    /\ ((exists n tm,
           tr = lookupEvents (reqEmail payload) (reqPhoneNumber payload) false (S n)
                ++ tm
           /\ Forall noPrimaryCreated tm)
        \/ tr = lookupEvents (reqEmail payload) (reqPhoneNumber payload) false 0
                ++ lookupEvents (reqEmail payload) (reqPhoneNumber payload) true 0
                ++ [mkEvent true (SCreate primary)]
        \/ (exists n,
              tr = lookupEvents (reqEmail payload) (reqPhoneNumber payload) false 0
                   ++ lookupEvents (reqEmail payload) (reqPhoneNumber payload) true (S n)
                   ++ lookupEvents (reqEmail payload) (reqPhoneNumber payload) false 0
                   ++ [mkEvent false (SCreate primary)])
        \/ (exists n k tm,
              tr = lookupEvents (reqEmail payload) (reqPhoneNumber payload) false 0
                   ++ lookupEvents (reqEmail payload) (reqPhoneNumber payload) true (S n)
                   ++ lookupEvents (reqEmail payload) (reqPhoneNumber payload) false (S k)
                   ++ tm
              /\ Forall noPrimaryCreated tm)).
Proof.
  unfold identifyContact.
  set (em := reqEmail payload). set (ph := reqPhoneNumber payload).
  unfold bind at 1.
  destruct (lookup_run em ph None w) as [m1 [w1 [-> E1]]]. cbn [isSome] in E1.
  destruct m1 as [|x1 m1]; cbn [List.length Nat.eqb].
  - unfold bind at 1. unfold transaction.
    unfold bind at 1.
    destruct (lookup_run em ph (Some txClient) (interfere w1)) as [m2 [w2 [-> E2]]].
    cbn [isSome] in E2. rewrite interfere_trace in E2.
    destruct m2 as [|x2 m2]; cbn [List.length Nat.eqb].
    + unfold bind at 1.
      destruct (createPrimaryContact_run em ph (Some txClient) w2)
        as [c [w3 [-> E3]]].
      cbn [ret snd].
      eexists. split; [rewrite E3, E2, E1, <- !app_assoc; reflexivity|].
      right. left. reflexivity.
    + cbn [ret].
      unfold bind at 1.
      destruct (lookup_run em ph None w2) as [m3 [w3 [-> E3]]]. cbn [isSome] in E3.
      destruct m3 as [|x3 m3]; cbn [List.length Nat.eqb].
      * unfold bind at 1.
        destruct (createPrimaryContact_run em ph None w3) as [c [w4 [-> E4]]].
        cbn [ret snd isSome] in *.
        eexists. split; [rewrite E4, E3, E2, E1, <- !app_assoc; reflexivity|].
        right. right. left. exists (List.length m2). reflexivity.
      * destruct (mergeAndRespond_emits (x3 :: m3) em ph w3) as [tm [E4 F4]].
        eexists. split; [rewrite E4, E3, E2, E1, <- !app_assoc; reflexivity|].
        right. right. right. exists (List.length m2), (List.length m3), tm.
        split; [reflexivity|exact F4].
  - destruct (mergeAndRespond_emits (x1 :: m1) em ph w1) as [tm [E2 F2]].
    eexists. split; [rewrite E2, E1, <- !app_assoc; reflexivity|].
    left. exists (List.length m1), tm. split; [reflexivity|exact F2].
Qed.

(** C8: the code evaluated on a schedule that reaches its fallback.  A
    request inserts the same email before the call's transaction, so the
    re-check finds it and nothing is created there; the row is soft-deleted
    before the lookup that follows the transaction, which finds nothing;
    the call then creates its primary on the plain client, outside any
    transaction and with no re-check in the same unit, after yet another
    request has inserted the email again.  The table ends with two live
    primaries for one email, where the header of the service promises that
    the creation is wrapped in a transaction that re-checks immediately
    before inserting. *)
Theorem create_outside_transaction :
  let run := identifyContact (mkRequest (Some "n@x.com"%string) None) gapWorld in
  trace (snd run)
  = [ mkEvent false (SFindMany 0); mkEvent true (SFindMany 1);
      mkEvent false (SFindMany 0); mkEvent false (SCreate primary) ]
  /\ In (mkEvent false (SCreate primary)) (trace (snd run))
  /\ exists r,
       fst run = Return r
       /\ primaryContactId (contact r) = 3
       /\ map (fun c => (id c, email c, linkPrecedence c, deletedAt c))
            (contacts (db (snd run)))
          = [ (1, Some "n@x.com"%string, primary, Some 0);
              (2, Some "n@x.com"%string, primary, None);
              (3, Some "n@x.com"%string, primary, None) ].
Proof.
  cbv zeta. split; [vm_compute; reflexivity|]. split.
  - vm_compute. tauto.
  - eexists. split; [vm_compute; reflexivity|]. split; vm_compute; reflexivity.
Qed.

(** *** Well-formed tables stay well-formed *)

Lemma wellFormed_empty (n now : Z) : wellFormed (mkStore [] n now).
Proof.
  repeat split.
  - constructor.
  - intros c [].
  - intros c l [].
  - intros c [].
Qed.

Lemma wellFormed_no_match (em ph : option string) (s : Store) :
  wellFormed s ->
  wellFormed (mkStore (contacts s ++ [newRow s em ph None primary])
                (nextId s + 1) (clock s)).
Proof.
  intros [Hu [Hb [Hl Hun]]]. repeat split.
  - unfold uniqueIds. cbn. rewrite map_app. cbn.
    apply NoDup_snoc_fresh; [exact Hu|].
    intros x Hx. apply in_map_iff in Hx. destruct Hx as [c [<- Hc]]. now apply Hb.
  - intros c Hc. cbn in *. apply in_app_iff in Hc.
    destruct Hc as [Hc|[<-|[]]]; [specialize (Hb c Hc)|cbn]; lia.
  - intros c l Hc Hlk. cbn in *. apply in_app_iff in Hc.
    destruct Hc as [Hc|[<-|[]]]; [specialize (Hl c l Hc Hlk); lia|discriminate].
  - intros c Hc Hlp. cbn in Hc. apply in_app_iff in Hc.
    destruct Hc as [Hc|[<-|[]]]; [now apply Hun|reflexivity].
Qed.

Lemma wellFormed_merge (em ph : option string) (s : Store)
    (tp : ContactRecord) (stale : list ContactRecord) :
  wellFormed s ->
  primariesOf (implicated em ph s) = tp :: stale ->
  wellFormed (ingest tp em ph (demoteStale tp stale s)).
Proof.
  intros [Hu [Hb [Hl Hun]]] Hp.
  destruct (settled_after_merge em ph s tp stale Hu Hb Hun Hp)
    as [Hu' Hun' _ _ _ _].
  destruct (demoteStale_fields tp stale s) as [Hn _].
  destruct (primaries_facts em ph s tp stale Hp tp (or_introl eq_refl))
    as [_ [Htp _]].
  pose proof (Hb tp Htp) as Htpb.
  assert (Hnext : nextId s <= nextId (ingest tp em ph (demoteStale tp stale s))).
  { unfold ingest. destruct (addsInformation _ _ _ _); cbn; lia. }
  assert (Hadd : addsInformation tp em ph (demoteStale tp stale s) = true ->
            nextId (ingest tp em ph (demoteStale tp stale s)) = nextId s + 1).
  { intros E. unfold ingest. rewrite E. cbn. lia. }
  split; [exact Hu'|]. split; [|split; [|exact Hun']].
  - intros c' Hc'. apply ingest_contacts in Hc'. destruct Hc' as [Hc'|[E ->]].
    + apply merged_contacts in Hc'. destruct Hc' as [c [Hc ->]].
      destruct (mergedRow_kept (clock s) (id tp) (map id stale) c) as [-> _].
      specialize (Hb c Hc). lia.
    + rewrite (Hadd E). cbn. lia.
  - intros c' l Hc' Hlk. apply ingest_contacts in Hc'.
    destruct Hc' as [Hc'|[E ->]].
    + apply merged_contacts in Hc'. destruct Hc' as [c [Hc ->]].
      destruct (mergedRow_cases (clock s) (id tp) (map id stale) c)
        as [[_ E]|[[_ [_ [_ E]]]|[_ [_ E]]]]; rewrite E in Hlk.
      * cbn in Hlk. injection Hlk as <-. lia.
      * cbn in Hlk. injection Hlk as <-. lia.
      * specialize (Hl c l Hc Hlk). lia.
    + cbn in Hlk. injection Hlk as <-. lia.
Qed.

(** Every call takes a well-formed table to a well-formed table, so the
    tables reached from the empty one are all well-formed. *)
Lemma wellFormed_preserved (em ph : option string) (s : Store) :
  wellFormed s -> wellFormed (snd (runAlone (mkRequest em ph) s)).
Proof.
  intros Hw.
  destruct (matchesOf em ph s) as [|m ms] eqn:Hm.
  - rewrite (runAlone_no_match em ph s Hm). now apply wellFormed_no_match.
  - assert (Hne : matchesOf em ph s <> []) by (rewrite Hm; discriminate).
    destruct (primariesOf (implicated em ph s)) as [|tp stale] eqn:Hp.
    + now rewrite (runAlone_corrupt em ph s Hne Hp).
    + rewrite (runAlone_merge em ph s tp stale Hne Hp).
      now apply wellFormed_merge.
Qed.

(** The hypothesis that primaries carry no link is needed for idempotence:
    on [linkedPrimaries], a table no call produces, the second response
    names another primary than the first. *)
Remark idempotence_needs_unlinked_primaries :
  ~ primariesUnlinked linkedPrimaries
  /\ fst (runAlone (mkRequest (Some "a@x.com"%string) None) linkedPrimaries)
     = Return (mkResponse (mkConsolidated 2
                 ["t@x.com"%string; "a@x.com"%string] [] [6]))
  /\ fst (runAlone (mkRequest (Some "a@x.com"%string) None)
            (snd (runAlone (mkRequest (Some "a@x.com"%string) None)
                    linkedPrimaries)))
     = Return (mkResponse (mkConsolidated 5
                 ["q@x.com"%string; "t@x.com"%string; "a@x.com"%string] []
                 [2; 6])).
Proof.
  split; [|split; vm_compute; reflexivity].
  intros H.
  specialize (H (mkContact 2 None (Some "t@x.com"%string) (Some 7) primary 1 1 None)).
  cbn in H. assert (E : Some 7 = @None Z) by (apply H; tauto). discriminate.
Qed.

(** ** Further properties of the repository, the service and the boundary *)

(** *** The lookups *)

Lemma findMany_sorted (p : ContactRecord -> bool) (s : Store) :
  StronglySorted (keyLe createdAt) (findMany p s).
Proof. unfold findMany. apply sortBy_sorted. Qed.

Lemma matchesOf_sorted (em ph : option string) (s : Store) :
  StronglySorted (keyLe createdAt) (matchesOf em ph s).
Proof.
  unfold matchesOf. destruct (_ =? _)%nat; [constructor|apply findMany_sorted].
Qed.

(** X1: in any world, the lookup by email or phone number returns exactly
    the rows of the table it reads that are not deleted and carry a
    submitted field that is set, oldest first; it writes nothing, and on
    the transaction client it reads the table as it stands. *)
Theorem lookup_returns_live_matches (em ph : option string)
    (tx : option TransactionClient) (w : World) :
  exists ms w',
    findContactsByEmailOrPhone em ph tx w = (Return ms, w')
    /\ (forall c, In c ms <-> In c (contacts (db w')) /\ answers em ph c)
    /\ (forall c, In c ms -> deletedAt c = None)
    /\ StronglySorted (keyLe createdAt) ms
    /\ (db w' = db w \/ (tx = None /\ db w' = db (interfere w))).
Proof.
  assert (Hfacts : forall s,
            (forall c, In c (matchesOf em ph s) <-> In c (contacts s) /\ answers em ph c)
            /\ (forall c, In c (matchesOf em ph s) -> deletedAt c = None)
            /\ StronglySorted (keyLe createdAt) (matchesOf em ph s)).
  { intros s. split; [apply matchesOf_In|]. split; [|apply matchesOf_sorted].
    intros c Hc. apply matchesOf_In in Hc. apply Hc. }
  unfold findContactsByEmailOrPhone.
  destruct (List.length (orConditions em ph) =? 0)%nat eqn:Ec.
  - exists [], w. split; [reflexivity|].
    destruct (Hfacts (db w)) as [H1 [H2 H3]].
    unfold matchesOf in H1, H2, H3. rewrite Ec in H1, H2, H3.
    split; [exact H1|]. split; [exact H2|]. split; [exact H3|now left].
  - unfold statement.
    set (w1 := if isSome tx then w else interfere w).
    destruct (Hfacts (db w1)) as [H1 [H2 H3]].
    unfold matchesOf in H1, H2, H3. rewrite Ec in H1, H2, H3.
    eexists. eexists. split; [reflexivity|]. cbn [db].
    split; [exact H1|]. split; [exact H2|]. split; [exact H3|].
    unfold w1. destruct tx; cbn; auto.
Qed.

(** X2: in any world, the cluster lookup returns exactly the rows that are
    not deleted and whose [id] or [linkedId] is among the given
    identifiers, oldest first, and writes nothing; the sort of step 5 is
    therefore the identity on the primaries of what it returns. *)
Theorem cluster_lookup_is_sorted_membership (primaryIds : list Z)
    (tx : option TransactionClient) (w : World) :
  exists ms w',
    findContactCluster primaryIds tx w = (Return ms, w')
    /\ (forall c, In c ms
          <-> In c (contacts (db w')) /\ deletedAt c = None
              /\ (In (id c) primaryIds
                  \/ exists l, linkedId c = Some l /\ In l primaryIds))
    /\ StronglySorted (keyLe createdAt) ms
    /\ primariesOf ms = filter isPrimary ms
    /\ (db w' = db w \/ (tx = None /\ db w' = db (interfere w))).
Proof.
  unfold findContactCluster, statement.
  set (w1 := if isSome tx then w else interfere w).
  exists (clusterOf primaryIds (db w1)). eexists.
  split; [reflexivity|]. cbn [db].
  split; [intros c; apply clusterOf_In|].
  split; [apply findMany_sorted|]. split.
  - unfold primariesOf. apply sortBy_of_sorted, filter_sorted, findMany_sorted.
  - unfold w1. destruct tx; cbn; auto.
Qed.

(** *** Root identifiers *)

Lemma setAddZ_NoDup (s : list Z) (x : Z) : NoDup s -> NoDup (setAddZ s x).
Proof.
  intros H. unfold setAddZ. destruct (inZ x s) eqn:E; [exact H|].
  apply inZ_false in E. apply NoDup_app; [exact H|repeat constructor; simpl; tauto|].
  intros y Hy [Ey|[]]. subst y. contradiction.
Qed.

(** X3: [getRootPrimaryIds] returns each root once; an identifier is in the
    result exactly when it is the [id] of a matched primary or the
    [linkedId] of a matched secondary, so secondaries without link and an
    empty list of matches give no root. *)
Theorem root_ids_are_distinct_roots (rows : list ContactRecord) :
  NoDup (getRootPrimaryIds rows)
  /\ (forall x, In x (getRootPrimaryIds rows)
        <-> exists c, In c rows
              /\ ((linkPrecedence c = primary /\ id c = x)
                  \/ (linkPrecedence c = secondary /\ linkedId c = Some x)))
  /\ ((forall c, In c rows -> linkPrecedence c = secondary /\ linkedId c = None)
      <-> getRootPrimaryIds rows = []).
Proof.
  assert (Hnd : NoDup (getRootPrimaryIds rows)).
  { unfold getRootPrimaryIds.
    assert (H : forall acc, NoDup acc ->
      NoDup (fold_left
               (fun ids c =>
                  match linkPrecedence c with
                  | primary => setAddZ ids (id c)
                  | secondary =>
                      match linkedId c with
                      | Some l0 => setAddZ ids l0
                      | None => ids
                      end
                  end) rows acc)).
    { induction rows as [|c rows IH]; intros acc Hacc; simpl; [exact Hacc|].
      apply IH. destruct (linkPrecedence c); [now apply setAddZ_NoDup|].
      destruct (linkedId c); [now apply setAddZ_NoDup|exact Hacc]. }
    apply H. constructor. }
  assert (Hin : forall x, In x (getRootPrimaryIds rows)
        <-> exists c, In c rows
              /\ ((linkPrecedence c = primary /\ id c = x)
                  \/ (linkPrecedence c = secondary /\ linkedId c = Some x))).
  { intros x. rewrite getRootPrimaryIds_In. unfold rootOf.
    split; intros [c [Hc Hr]]; exists c; (split; [exact Hc|]);
      destruct (linkPrecedence c).
    - left. split; [reflexivity|congruence].
    - right. now split.
    - destruct Hr as [[_ ->]|[E _]]; [reflexivity|discriminate].
    - destruct Hr as [[E _]|[_ E]]; [discriminate|exact E]. }
  split; [|split; [exact Hin|]].
  - exact Hnd.
  - split.
    + intros Hall. destruct (getRootPrimaryIds rows) as [|x l] eqn:E; [reflexivity|].
      exfalso. destruct (proj1 (Hin x) (or_introl eq_refl)) as [c [Hc Hr]].
      destruct (Hall c Hc) as [H1 H2].
      destruct Hr as [[H3 _]|[_ H3]]; congruence.
    + intros E c Hc.
      destruct (linkPrecedence c) eqn:Hl.
      * exfalso. assert (Hx : In (id c) (getRootPrimaryIds rows)).
        { apply Hin. exists c. auto. }
        rewrite E in Hx. destruct Hx.
      * split; [reflexivity|].
        destruct (linkedId c) as [l|] eqn:Hk; [|reflexivity].
        exfalso. assert (Hx : In l (getRootPrimaryIds rows)).
        { apply Hin. exists c. auto. }
        rewrite E in Hx. destruct Hx.
Qed.

(** *** The response *)

Lemma presentValues_In (field : ContactRecord -> option string)
    (cs : list ContactRecord) (x : string) :
  In x (presentValues field cs)
  <-> x <> EmptyString /\ exists c, In c cs /\ field c = Some x.
Proof.
  induction cs as [|c cs IH]; simpl.
  - split; [tauto|]. intros [_ [c [[] _]]].
  - destruct (field c) as [v|] eqn:F.
    + destruct (String.eqb_spec v EmptyString) as [->|Hv].
      * rewrite IH. split.
        -- intros [Hx [c' [Hc' E]]]. split; [exact Hx|]. exists c'. auto.
        -- intros [Hx [c' [[<-|Hc'] E]]]; [congruence|].
           split; [exact Hx|]. now exists c'.
      * simpl. rewrite IH. split.
        -- intros [<-|[Hx [c' [Hc' E]]]].
           ++ split; [exact Hv|]. exists c. auto.
           ++ split; [exact Hx|]. exists c'. auto.
        -- intros [Hx [c' [[<-|Hc'] E]]].
           ++ left. congruence.
           ++ right. split; [exact Hx|]. now exists c'.
    + rewrite IH. split.
      * intros [Hx [c' [Hc' E]]]. split; [exact Hx|]. exists c'. auto.
      * intros [Hx [c' [[<-|Hc'] E]]]; [congruence|].
        split; [exact Hx|]. now exists c'.
Qed.

Lemma buildResponse_membership (p : ContactRecord) (ss : list ContactRecord) :
  NoDup (emails (contact (buildResponse p ss)))
  /\ NoDup (phoneNumbers (contact (buildResponse p ss)))
  /\ (forall x, In x (emails (contact (buildResponse p ss)))
        <-> x <> EmptyString /\ exists c, In c (p :: ss) /\ email c = Some x)
  /\ (forall x, In x (phoneNumbers (contact (buildResponse p ss)))
        <-> x <> EmptyString
            /\ exists c, In c (p :: ss) /\ phoneNumber c = Some x)
  /\ List.length (secondaryContactIds (contact (buildResponse p ss)))
     = List.length ss.
Proof.
  rewrite buildResponse_consolidated. cbn [contact emails phoneNumbers secondaryContactIds].
  destruct (consolidated_facts email p ss) as [He1 [He2 _]].
  destruct (consolidated_facts phoneNumber p ss) as [Hp1 [Hp2 _]].
  split; [exact He1|]. split; [exact Hp1|]. split; [|split].
  - intros x. now rewrite He2, presentValues_In.
  - intros x. now rewrite Hp2, presentValues_In.
  - apply length_map.
Qed.

(** X4: the lists of [buildResponse] have no duplicate and no empty
    string; a value is listed exactly when the primary or one of the
    secondaries carries it; there is one secondary identifier per secondary
    given. *)
Theorem buildResponse_lists (p : ContactRecord) (ss : list ContactRecord) :
  NoDup (emails (contact (buildResponse p ss)))
  /\ NoDup (phoneNumbers (contact (buildResponse p ss)))
  /\ (forall x, In x (emails (contact (buildResponse p ss)))
        <-> x <> EmptyString /\ exists c, In c (p :: ss) /\ email c = Some x)
  /\ (forall x, In x (phoneNumbers (contact (buildResponse p ss)))
        <-> x <> EmptyString
            /\ exists c, In c (p :: ss) /\ phoneNumber c = Some x)
  /\ List.length (secondaryContactIds (contact (buildResponse p ss)))
     = List.length ss.
Proof. exact (buildResponse_membership p ss). Qed.

(** *** The merge step *)

Lemma store_ext (a b : Store) :
  contacts a = contacts b -> nextId a = nextId b -> clock a = clock b -> a = b.
Proof. destruct a, b. simpl. congruence. Qed.

Lemma inZ_Permutation (x : Z) (l l' : list Z) :
  Permutation l l' -> inZ x l = inZ x l'.
Proof.
  intros Hp. destruct (inZ x l') eqn:E.
  - apply inZ_In. apply inZ_In in E. eapply Permutation_in; [symmetry|]; eassumption.
  - apply inZ_false. apply inZ_false in E. intros H. apply E.
    eapply Permutation_in; eassumption.
Qed.

Lemma mergedRow_Permutation (now tid : Z) (ids ids' : list Z) (c : ContactRecord) :
  Permutation ids ids' -> mergedRow now tid ids c = mergedRow now tid ids' c.
Proof.
  intros Hp. unfold mergedRow. rewrite (inZ_Permutation (id c) ids ids' Hp).
  destruct (linkedId c) as [l|]; [|reflexivity].
  cbn [optZIn]. now rewrite (inZ_Permutation l ids ids' Hp).
Qed.

Lemma mergedRow_idempotent (now tid : Z) (ids : list Z) (c : ContactRecord) :
  mergedRow now tid ids (mergedRow now tid ids c) = mergedRow now tid ids c.
Proof.
  destruct (mergedRow_cases now tid ids c)
    as [[Hin E]|[[Hn [_ [_ E]]]|[_ [_ E]]]]; rewrite E; [| |exact E].
  - unfold mergedRow. cbn [id dataDemote].
    apply inZ_In in Hin. now rewrite Hin.
  - unfold mergedRow. cbn [id linkedId deletedAt dataRelink].
    apply inZ_false in Hn. rewrite Hn.
    destruct (optZIn (Some tid) ids && isNull (deletedAt c)); reflexivity.
Qed.

Lemma mergedRow_again (now later tid : Z) (ids : list Z) (c : ContactRecord) :
  unstamped (mergedRow later tid ids (mergedRow now tid ids c))
  = unstamped (mergedRow now tid ids c).
Proof.
  destruct (mergedRow_cases now tid ids c)
    as [[Hin E]|[[Hn [_ [_ E]]]|[Hn [Hno E]]]]; rewrite E.
  - unfold mergedRow. cbn [id dataDemote].
    apply inZ_In in Hin. now rewrite Hin.
  - unfold mergedRow. cbn [id linkedId deletedAt dataRelink].
    apply inZ_false in Hn. rewrite Hn.
    destruct (optZIn (Some tid) ids && isNull (deletedAt c)); reflexivity.
  - destruct (mergedRow_cases later tid ids c)
      as [[Hin _]|[[_ [Hl [Hd _]]]|[_ [_ E']]]]; [contradiction| |now rewrite E'].
    exfalso. apply Hno. now split.
Qed.

(** X5: steps 5a and 5b depend on the stale primaries only through the set
    of their identifiers: the order in which the loop visits them does not
    matter.  Running the two steps a second time at the same clock changes
    nothing; running them again at any later time changes no field of any
    row other than [updatedAt], which [updateMany] stamps anew on the rows
    it matches. *)
Theorem demotion_order_and_retry (tp : ContactRecord)
    (stale stale' : list ContactRecord) (s : Store) (later : Z) :
  Permutation stale stale' ->
  demoteStale tp stale s = demoteStale tp stale' s
  /\ demoteStale tp stale (demoteStale tp stale s) = demoteStale tp stale s
  /\ map unstamped
       (contacts (demoteStale tp stale
                    (laterClock later (demoteStale tp stale s))))
     = map unstamped (contacts (demoteStale tp stale s)).
Proof.
  intros Hp.
  destruct (demoteStale_fields tp stale s) as [Hn Hc].
  destruct (demoteStale_fields tp stale' s) as [Hn' Hc'].
  destruct (demoteStale_fields tp stale (demoteStale tp stale s)) as [Hn2 Hc2].
  split; [|split].
  - apply store_ext; try congruence.
    rewrite !demoteStale_contacts. apply map_ext. intros c.
    apply mergedRow_Permutation. now apply Permutation_map.
  - apply store_ext; try congruence.
    rewrite (demoteStale_contacts tp stale (demoteStale tp stale s)).
    rewrite Hc, demoteStale_contacts, map_map. apply map_ext.
    intros c. apply mergedRow_idempotent.
  - rewrite (demoteStale_contacts tp stale
               (laterClock later (demoteStale tp stale s))).
    cbn [laterClock contacts clock].
    rewrite demoteStale_contacts, !map_map. apply map_ext.
    intros c. apply mergedRow_again.
Qed.

Lemma demotion_order_and_retry_witness :
  demoteStale rowA [rowB; rowOther] busyStore
  = demoteStale rowA [rowOther; rowB] busyStore
  /\ map unstamped
       (contacts (demoteStale rowA [rowB; rowOther]
                    (laterClock 200 (demoteStale rowA [rowB; rowOther] busyStore))))
     = map unstamped (contacts (demoteStale rowA [rowB; rowOther] busyStore)).
Proof.
  destruct (demotion_order_and_retry rowA [rowB; rowOther] [rowOther; rowB]
              busyStore 200 (perm_swap rowOther rowB [])) as [H1 [_ H3]].
  split; [exact H1|exact H3].
Defined.

(** *** What a call leaves alone *)

Lemma merged_keptFields (tp : ContactRecord) (stale : list ContactRecord)
    (s : Store) :
  map keptFields (contacts (demoteStale tp stale s)) = map keptFields (contacts s).
Proof.
  rewrite demoteStale_contacts, map_map. apply map_ext. intros c.
  unfold keptFields.
  destruct (mergedRow_kept (clock s) (id tp) (map id stale) c)
    as [-> [-> [-> [-> ->]]]]. reflexivity.
Qed.

(** X6: a call on its own never removes a row and never changes the
    [id], [email], [phoneNumber], [createdAt] or [deletedAt] of a row: on
    these fields the old table is a prefix of the new one, which has at
    most one more row; the sequence never goes back and the clock is left
    alone. *)
Theorem identify_keeps_rows (em ph : option string) (s : Store) :
  exists added,
    map keptFields (contacts (snd (runAlone (mkRequest em ph) s)))
    = map keptFields (contacts s) ++ map keptFields added
    /\ (List.length added <= 1)%nat
    /\ nextId (snd (runAlone (mkRequest em ph) s))
       = nextId s + Z.of_nat (List.length added)
    /\ clock (snd (runAlone (mkRequest em ph) s)) = clock s.
Proof.
  destruct (matchesOf em ph s) as [|m ms] eqn:Hm.
  - rewrite (runAlone_no_match em ph s Hm). cbn [snd contacts nextId clock].
    exists [newRow s em ph None primary].
    split; [now rewrite map_app|]. split; [simpl; lia|]. split; [simpl; lia|reflexivity].
  - assert (Hne : matchesOf em ph s <> []) by (rewrite Hm; discriminate).
    destruct (primariesOf (implicated em ph s)) as [|tp stale] eqn:Hp.
    + rewrite (runAlone_corrupt em ph s Hne Hp). cbn [snd].
      exists []. split; [now rewrite app_nil_r|]. split; [simpl; lia|].
      split; [simpl; lia|reflexivity].
    + rewrite (runAlone_merge em ph s tp stale Hne Hp). cbn [snd].
      destruct (demoteStale_fields tp stale s) as [Hn Hc].
      unfold ingest. destruct (addsInformation tp em ph (demoteStale tp stale s)).
      * cbn [create snd contacts nextId clock].
        exists [newRow (demoteStale tp stale s) (orNull em) (orNull ph)
                  (Some (id tp)) secondary].
        split; [now rewrite map_app, merged_keptFields|].
        split; [simpl; lia|]. split; [simpl; lia|exact Hc].
      * exists []. split; [now rewrite app_nil_r, merged_keptFields|].
        split; [simpl; lia|]. split; [simpl; lia|exact Hc].
Qed.

(** X7: on a table with unique identifiers whose primaries carry no link, a
    call on its own leaves untouched every deleted row and every row
    outside the implicated clusters. *)
Theorem identify_frame (em ph : option string) (s : Store) (c : ContactRecord) :
  uniqueIds s -> primariesUnlinked s ->
  In c (contacts s) ->
  deletedAt c <> None \/ ~ In c (implicated em ph s) ->
  In c (contacts (snd (runAlone (mkRequest em ph) s))).
Proof.
  intros Hu Hun Hc Hout.
  destruct (matchesOf em ph s) as [|m ms] eqn:Hm.
  - rewrite (runAlone_no_match em ph s Hm). cbn. apply in_app_iff. now left.
  - assert (Hne : matchesOf em ph s <> []) by (rewrite Hm; discriminate).
    destruct (primariesOf (implicated em ph s)) as [|tp stale] eqn:Hp.
    + now rewrite (runAlone_corrupt em ph s Hne Hp).
    + rewrite (runAlone_merge em ph s tp stale Hne Hp). cbn [snd].
      apply ingest_contacts. left. apply merged_contacts. exists c.
      split; [exact Hc|].
      assert (Hstale : forall p, In p stale ->
                In p (contacts s) /\ deletedAt p = None
                /\ In p (implicated em ph s)
                /\ In (id p) (getRootPrimaryIds (matchesOf em ph s))).
      { intros p Hin.
        destruct (primaries_facts em ph s tp stale Hp p (or_intror Hin))
          as [H1 [H2 [H3 H4]]].
        repeat split; auto.
        unfold implicated in H1. apply clusterOf_In in H1.
        destruct H1 as [_ [_ [H|[l [Hl _]]]]]; [exact H|].
        rewrite (Hun p H2 H4) in Hl. discriminate. }
      destruct (mergedRow_cases (clock s) (id tp) (map id stale) c)
        as [[Hin _]|[[_ [[l [Hl Hin]] [Hd _]]]|[_ [_ E]]]]; [| |now rewrite E].
      * exfalso. apply in_map_iff in Hin. destruct Hin as [p [Ep Hpin]].
        destruct (Hstale p Hpin) as [H1 [H2 [H3 _]]].
        assert (p = c) by (apply (unique_row (contacts s)); auto). subst p.
        destruct Hout as [Hdel|Hni]; [congruence|contradiction].
      * exfalso. apply in_map_iff in Hin. destruct Hin as [p [Ep Hpin]].
        destruct (Hstale p Hpin) as [_ [_ [_ H4]]].
        destruct Hout as [Hdel|Hni]; [congruence|].
        apply Hni. unfold implicated. apply clusterOf_In.
        split; [exact Hc|]. split; [exact Hd|]. right. exists l.
        split; [exact Hl|]. now rewrite <- Ep.
Qed.

Lemma busyStore_wellFormed : wellFormed busyStore /\ soundLinks busyStore.
Proof.
  split; [repeat split|].
  - unfold uniqueIds. cbn.
    repeat (constructor; [simpl; intuition discriminate|]). constructor.
  - intros c [<-|[<-|[<-|[<-|[<-|[]]]]]]; cbn; lia.
  - intros c l [<-|[<-|[<-|[<-|[<-|[]]]]]]; cbn; intros E; inversion E; lia.
  - intros c [<-|[<-|[<-|[<-|[<-|[]]]]]]; cbn; intros E; try reflexivity;
      discriminate.
  - intros c [<-|[<-|[<-|[<-|[<-|[]]]]]]; cbn; intros Hd Hl; try discriminate.
    exists rowB. cbn. tauto.
Qed.

Lemma identify_frame_witness :
  In rowDeleted
     (contacts (snd (runAlone (mkRequest (Some "a@x.com"%string) (Some "111"%string))
                       busyStore)))
  /\ In rowOther
       (contacts (snd (runAlone (mkRequest (Some "a@x.com"%string)
                                   (Some "111"%string)) busyStore))).
Proof.
  destruct busyStore_wellFormed as [[Hu [_ [_ Hun]]] _].
  split.
  - apply (identify_frame _ _ busyStore rowDeleted Hu Hun); [cbn; tauto|].
    left. discriminate.
  - apply (identify_frame _ _ busyStore rowOther Hu Hun); [cbn; tauto|].
    right. vm_compute. intuition discriminate.
Defined.

(** *** The response and the clusters *)

(** After a call that matched on a well-formed table, the final cluster is
    the row of the true primary, which the response is built from, and
    secondaries linked to it. *)
Lemma merge_response (em ph : option string) (s : Store)
    (tp : ContactRecord) (stale : list ContactRecord) :
  uniqueIds s -> idsBelowNext s -> primariesUnlinked s ->
  primariesOf (implicated em ph s) = tp :: stale ->
  exists fp,
    respond tp (ingest tp em ph (demoteStale tp stale s))
    = Return (buildResponse fp
                (filter isSecondary
                   (clusterOf [id tp] (ingest tp em ph (demoteStale tp stale s)))))
    /\ id fp = id tp /\ linkPrecedence fp = primary
    /\ (forall c,
          In c (clusterOf [id tp] (ingest tp em ph (demoteStale tp stale s))) ->
          c = fp \/ (linkPrecedence c = secondary /\ linkedId c = Some (id tp))).
Proof.
  intros Hu Hb Hun Hp.
  set (s' := ingest tp em ph (demoteStale tp stale s)).
  destruct (settled_after_merge em ph s tp stale Hu Hb Hun Hp)
    as [Hu' Hun' _ _ [t [Ht [Hid [Hl Hd]]]] _].
  fold s' in Hu', Hun', Ht.
  assert (Hcl : forall c, In c (clusterOf [id tp] s') ->
            c = t \/ (linkPrecedence c = secondary /\ linkedId c = Some (id tp))).
  { intros c Hc. apply clusterOf_In in Hc.
    destruct Hc as [Hc [Hcd [[E|[]]|[l [Hlk [E|[]]]]]]].
    - left. apply (unique_row (contacts s')); auto. congruence.
    - right. subst l. split; [|exact Hlk].
      destruct (linkPrecedence c) eqn:Hlp; [|reflexivity].
      rewrite (Hun' c Hc Hlp) in Hlk. discriminate. }
  assert (Hin : In t (clusterOf [id tp] s')).
  { apply clusterOf_In. split; [exact Ht|]. split; [exact Hd|]. left. now left. }
  destruct (find_exists (fun c => id c =? id tp) (clusterOf [id tp] s') t Hin)
    as [fp Hfp]; [now apply Z.eqb_eq|].
  assert (fp = t).
  { pose proof Hfp as H. apply find_some in H. destruct H as [H1 H2].
    apply Z.eqb_eq in H2. destruct (Hcl fp H1) as [E|[Hs Hk]]; [exact E|].
    apply clusterOf_In in H1. destruct H1 as [H1 _].
    apply (unique_row (contacts s')); auto. congruence. }
  subst fp. exists t. split.
  - unfold respond. cbv zeta. now rewrite Hfp.
  - auto.
Qed.

(** X8: on a well-formed table, the response of a call on its own lists
    every submitted value that is set: the email among [emails], the phone
    number among [phoneNumbers]. *)
Theorem response_lists_submitted_facts (em ph : option string) (s s' : Store)
    (r : IdentifyResponse) :
  wellFormed s ->
  runAlone (mkRequest em ph) s = (Return r, s') ->
  (forall e, em = Some e -> e <> EmptyString -> In e (emails (contact r)))
  /\ (forall p, ph = Some p -> p <> EmptyString ->
        In p (phoneNumbers (contact r))).
Proof.
  intros [Hu [Hb [Hl Hun]]] Hrun.
  destruct (matchesOf em ph s) as [|m ms] eqn:Hm.
  - rewrite (runAlone_no_match em ph s Hm) in Hrun.
    injection Hrun as <- _.
    destruct (buildResponse_membership (newRow s em ph None primary) [])
      as [_ [_ [He [Hph _]]]].
    split; intros v -> Hv.
    + apply He. split; [exact Hv|].
      exists (newRow s (Some v) ph None primary). split; [now left|reflexivity].
    + apply Hph. split; [exact Hv|].
      exists (newRow s em (Some v) None primary). split; [now left|reflexivity].
  - assert (Hne : matchesOf em ph s <> []) by (rewrite Hm; discriminate).
    destruct (primariesOf (implicated em ph s)) as [|tp stale] eqn:Hp.
    + rewrite (runAlone_corrupt em ph s Hne Hp) in Hrun. discriminate.
    + rewrite (runAlone_merge em ph s tp stale Hne Hp) in Hrun.
      destruct (merge_response em ph s tp stale Hu Hb Hun Hp)
        as [fp [Hr [Hid [Hlp Hcl]]]].
      rewrite Hr in Hrun. injection Hrun as <- _.
      destruct (settled_after_merge em ph s tp stale Hu Hb Hun Hp)
        as [_ _ _ _ _ Hknown].
      specialize (Hknown tp eq_refl).
      unfold addsInformation in Hknown. cbv zeta in Hknown.
      apply orb_false_iff in Hknown. destruct Hknown as [K1 K2].
      set (cluster := clusterOf [id tp] (ingest tp em ph (demoteStale tp stale s))) in *.
      assert (Hmem : forall c, In c cluster ->
                In c (fp :: filter isSecondary cluster)).
      { intros c Hc. destruct (Hcl c Hc) as [->|[Hs _]]; [now left|].
        right. apply filter_In. split; [exact Hc|now apply isSecondary_true]. }
      destruct (buildResponse_membership fp (filter isSecondary cluster))
        as [_ [_ [He [Hph _]]]].
      split; intros v -> Hv.
      * apply He. split; [exact Hv|].
        pose proof (known_of_not_new v _ K1 Hv) as Hin.
        apply clusterValues_In in Hin. destruct Hin as [c [Hc Ec]].
        exists c. split; [now apply Hmem|exact Ec].
      * apply Hph. split; [exact Hv|].
        pose proof (known_of_not_new v _ K2 Hv) as Hin.
        apply clusterValues_In in Hin. destruct Hin as [c [Hc Ec]].
        exists c. split; [now apply Hmem|exact Ec].
Qed.

Lemma response_lists_submitted_facts_witness :
  In "a@x.com"%string
    (emails (contact (mkResponse (mkConsolidated 1 ["a@x.com"%string]
                                    ["111"%string; "222"%string] [2; 3]))))
  /\ In "111"%string
       (phoneNumbers (contact (mkResponse (mkConsolidated 1 ["a@x.com"%string]
                                             ["111"%string; "222"%string] [2; 3])))).
Proof.
  destruct twoClusters_wellFormed as [Hu [Hb [Hl _]]].
  assert (Hun : primariesUnlinked twoClusters).
  { intros c [<-|[<-|[<-|[]]]]; cbn; intros E; try reflexivity; discriminate. }
  destruct (response_lists_submitted_facts
              (Some "a@x.com"%string) (Some "111"%string) twoClusters
              (snd (runAlone (mkRequest (Some "a@x.com"%string) (Some "111"%string))
                      twoClusters))
              (mkResponse (mkConsolidated 1 ["a@x.com"%string]
                             ["111"%string; "222"%string] [2; 3]))
              (conj Hu (conj Hb (conj Hl Hun))) eq_refl) as [H1 H2].
  split; [apply (H1 "a@x.com"%string)|apply (H2 "111"%string)];
    try reflexivity; discriminate.
Defined.

(** X9: when no live row carries a submitted field that is set, a call on
    its own appends exactly one row, a primary without link carrying the
    two fields as submitted, and answers with that row as primary, its
    non-empty values and no secondary; the rows already there are not
    touched. *)
Theorem no_match_creates_one_primary (em ph : option string) (s : Store) :
  (forall c, In c (contacts s) -> ~ answers em ph c) ->
  runAlone (mkRequest em ph) s
  = (Return
       (mkResponse
          (mkConsolidated (nextId s)
             (match em with
              | Some e => if (e =? EmptyString)%string then [] else [e]
              | None => []
              end)
             (match ph with
              | Some p => if (p =? EmptyString)%string then [] else [p]
              | None => []
              end)
             [])),
     mkStore
       (contacts s
        ++ [mkContact (nextId s) ph em None primary (clock s) (clock s) None])
       (nextId s + 1) (clock s)).
Proof.
  intros Hno. rewrite runAlone_no_match.
  - rewrite buildResponse_consolidated. unfold consolidated, newRow.
    cbn [presentValues email phoneNumber id map].
    destruct em as [e|], ph as [p|];
      try destruct (e =? EmptyString)%string;
      try destruct (p =? EmptyString)%string; reflexivity.
  - destruct (matchesOf em ph s) as [|m ms] eqn:E; [reflexivity|].
    exfalso. assert (H : In m (matchesOf em ph s)) by (rewrite E; now left).
    apply matchesOf_In in H. destruct H as [H1 H2]. exact (Hno m H1 H2).
Qed.

Lemma no_match_creates_one_primary_witness :
  exists r,
    runAlone (mkRequest (Some "new@x.com"%string) None) twoClusters
    = (Return r,
       mkStore
         (contacts twoClusters
          ++ [mkContact 4 None (Some "new@x.com"%string) None primary 100 100 None])
         5 100).
Proof.
  eexists.
  apply (no_match_creates_one_primary (Some "new@x.com"%string) None twoClusters).
  intros c [<-|[<-|[<-|[]]]] [_ [[_ E]|[E _]]]; discriminate.
Defined.

(** X10: on a well-formed table whose live secondaries point at live
    primaries, the response of a call that matched lists as secondaries
    all rows of the implicated clusters other than the true primary; and
    every identifier it lists is that of such a row or of the row the call
    created. *)
Theorem response_lists_whole_clusters (em ph : option string) (s s' : Store)
    (tp : ContactRecord) (stale : list ContactRecord) (r : IdentifyResponse) :
  wellFormed s -> soundLinks s ->
  primariesOf (implicated em ph s) = tp :: stale ->
  runAlone (mkRequest em ph) s = (Return r, s') ->
  (forall c, In c (implicated em ph s) -> id c <> id tp ->
             In (id c) (secondaryContactIds (contact r)))
  /\ (forall x, In x (secondaryContactIds (contact r)) ->
        x <> id tp
        /\ ((exists c, In c (implicated em ph s) /\ id c = x) \/ x = nextId s)).
Proof.
  intros [Hu [Hb [Hl Hun]]] Hsound Hp Hrun.
  pose proof (primaries_nonempty_matches em ph s tp stale Hp) as Hne.
  rewrite (runAlone_merge em ph s tp stale Hne Hp) in Hrun.
  destruct (merge_response em ph s tp stale Hu Hb Hun Hp)
    as [fp [Hr [Hid [Hlp Hcl]]]].
  rewrite Hr in Hrun. injection Hrun as <- _.
  cbn [contact buildResponse secondaryContactIds].
  set (merged := demoteStale tp stale s) in *.
  set (final := clusterOf [id tp] (ingest tp em ph merged)) in *.
  pose proof (truePrimary_not_stale em ph s tp stale Hu Hp) as Hns.
  destruct (demoteStale_fields tp stale s) as [Hn _]. fold merged in Hn.
  destruct (primaries_facts em ph s tp stale Hp tp (or_introl eq_refl))
    as [Htpi [Htp [Htpd Htpl]]].
  assert (Hroots : forall p, In p (tp :: stale) ->
            In (id p) (getRootPrimaryIds (matchesOf em ph s))).
  { intros p Hin.
    destruct (primaries_facts em ph s tp stale Hp p Hin) as [H1 [H2 [_ H4]]].
    unfold implicated in H1. apply clusterOf_In in H1.
    destruct H1 as [_ [_ [H|[l [Hk _]]]]]; [exact H|].
    rewrite (Hun p H2 H4) in Hk. discriminate. }
  split.
  - intros c Hc Hnid.
    destruct (implicated_In em ph s c Hc) as [Hcs Hcd].
    assert (Hsec : linkPrecedence (mergedRow (clock s) (id tp) (map id stale) c)
                   = secondary
                   /\ linkedId (mergedRow (clock s) (id tp) (map id stale) c)
                      = Some (id tp)).
    { destruct (linkPrecedence c) eqn:Hlc.
      - assert (Hin : In c (tp :: stale)).
        { rewrite <- Hp. apply primariesOf_In. now split. }
        destruct Hin as [<-|Hin]; [congruence|].
        destruct (mergedRow_cases (clock s) (id tp) (map id stale) c)
          as [[_ ->]|[[Hn' _]|[Hn' _]]]; [now split| |];
          exfalso; apply Hn'; now apply in_map.
      - destruct (Hsound c Hcs Hcd Hlc) as [q [Hq [Hk [Hql Hqd]]]].
        assert (Hqin : In q (tp :: stale)).
        { rewrite <- Hp. apply primariesOf_In. split; [|exact Hql].
          unfold implicated in Hc |- *. apply clusterOf_In in Hc.
          apply clusterOf_In. split; [exact Hq|]. split; [exact Hqd|]. left.
          destruct Hc as [_ [_ [Hr0|[l [Hk' Hl']]]]].
          - exfalso. apply getRootPrimaryIds_In in Hr0.
            destruct Hr0 as [m [Hm Hroot]].
            apply matchesOf_In in Hm. destruct Hm as [Hm [Hmd _]].
            unfold rootOf in Hroot. destruct (linkPrecedence m) eqn:Hlm.
            + injection Hroot as E.
              assert (m = c) by (apply (unique_row (contacts s)); auto).
              congruence.
            + destruct (Hsound m Hm Hmd Hlm) as [q' [Hq' [Hk'' [Hql' _]]]].
              assert (q' = c).
              { apply (unique_row (contacts s)); auto. congruence. }
              congruence.
          - congruence. }
        destruct (mergedRow_cases (clock s) (id tp) (map id stale) c)
          as [[Hin _]|[[_ [_ [_ ->]]]|[_ [Hno ->]]]].
        + exfalso. apply in_map_iff in Hin. destruct Hin as [p [Ep Hpin]].
          destruct (primaries_facts em ph s tp stale Hp p (or_intror Hpin))
            as [_ [Hps [_ Hpl]]].
          assert (p = c) by (apply (unique_row (contacts s)); auto). congruence.
        + now split.
        + split; [exact Hlc|].
          destruct Hqin as [<-|Hqin]; [exact Hk|].
          exfalso. apply Hno. split; [|exact Hcd].
          exists (id q). split; [exact Hk|now apply in_map]. }
    destruct Hsec as [Hs1 Hs2].
    destruct (mergedRow_kept (clock s) (id tp) (map id stale) c)
      as [Hi [_ [_ [Hdel _]]]].
    rewrite <- Hi. apply in_map. apply filter_In.
    split; [|now apply isSecondary_true].
    apply clusterOf_In. split.
    + apply ingest_contacts. left. apply merged_contacts. now exists c.
    + split; [congruence|]. right. exists (id tp). split; [exact Hs2|now left].
  - intros x Hx. apply in_map_iff in Hx. destruct Hx as [c' [<- Hc']].
    apply filter_In in Hc'. destruct Hc' as [Hc' Hsec].
    apply isSecondary_true in Hsec.
    destruct (Hcl c' Hc') as [->|[_ Hk]]; [congruence|].
    apply clusterOf_In in Hc'. destruct Hc' as [Hin [Hd _]].
    apply ingest_contacts in Hin. destruct Hin as [Hin|[_ ->]].
    + apply merged_contacts in Hin. destruct Hin as [c [Hc ->]].
      destruct (mergedRow_kept (clock s) (id tp) (map id stale) c)
        as [Hi [_ [_ [Hdel _]]]].
      rewrite Hi, Hdel in *.
      assert (Hci : In c (implicated em ph s) /\ c <> tp).
      { destruct (mergedRow_cases (clock s) (id tp) (map id stale) c)
          as [[Hs E]|[[_ [[l [Hl0 Hl1]] [_ E]]]|[_ [_ E]]]].
        - apply in_map_iff in Hs. destruct Hs as [p [Ep Hpin]].
          destruct (primaries_facts em ph s tp stale Hp p (or_intror Hpin))
            as [Hpi [Hps _]].
          assert (p = c) by (apply (unique_row (contacts s)); auto). subst p.
          split; [exact Hpi|]. intros ->. apply Hns. now apply in_map.
        - split.
          + unfold implicated. apply clusterOf_In. split; [exact Hc|].
            split; [exact Hd|]. right. exists l. split; [exact Hl0|].
            apply in_map_iff in Hl1. destruct Hl1 as [p [<- Hpin]].
            apply Hroots. now right.
          + intros ->. rewrite (Hun tp Htp Htpl) in Hl0. discriminate.
        - rewrite E in Hk, Hsec. split.
          + unfold implicated. apply clusterOf_In. split; [exact Hc|].
            split; [exact Hd|]. right. exists (id tp). split; [exact Hk|].
            apply Hroots. now left.
          + intros ->. congruence. }
      destruct Hci as [Hci Hne'].
      split.
      * intros E. apply Hne'. apply (unique_row (contacts s)); auto.
      * left. now exists c.
    + cbn [newRow id]. rewrite Hn. split; [|now right].
      specialize (Hb tp Htp). lia.
Qed.

Lemma response_lists_whole_clusters_witness :
  In 2 (secondaryContactIds
          (contact (mkResponse (mkConsolidated 1 ["a@x.com"%string]
                                  ["111"%string; "222"%string] [2; 3]))))
  /\ In 3 (secondaryContactIds
             (contact (mkResponse (mkConsolidated 1 ["a@x.com"%string]
                                     ["111"%string; "222"%string] [2; 3])))).
Proof.
  destruct busyStore_wellFormed as [Hw Hs].
  destruct (response_lists_whole_clusters
              (Some "a@x.com"%string) (Some "111"%string) busyStore
              (snd (runAlone (mkRequest (Some "a@x.com"%string) (Some "111"%string))
                      busyStore))
              rowA [rowB]
              (mkResponse (mkConsolidated 1 ["a@x.com"%string]
                             ["111"%string; "222"%string] [2; 3]))
              Hw Hs eq_refl eq_refl) as [H1 _].
  split.
  - apply (H1 rowB); [vm_compute; tauto|discriminate].
  - apply (H1 rowC); [vm_compute; tauto|discriminate].
Defined.

(** *** Invariants of the table *)

(** X11: a call on its own keeps the links sound: on a well-formed table
    whose live secondaries point at live primaries, they still do after the
    call. *)
Theorem soundLinks_preserved (em ph : option string) (s : Store) :
  wellFormed s -> soundLinks s ->
  soundLinks (snd (runAlone (mkRequest em ph) s)).
Proof.
  intros [Hu [Hb [Hl Hun]]] Hsound.
  destruct (matchesOf em ph s) as [|m ms] eqn:Hm.
  - rewrite (runAlone_no_match em ph s Hm). cbn [snd].
    intros c Hc Hd Hlc. cbn [contacts] in *. apply in_app_iff in Hc.
    destruct Hc as [Hc|[<-|[]]]; [|discriminate].
    destruct (Hsound c Hc Hd Hlc) as [q [Hq H]].
    exists q. split; [apply in_app_iff; now left|exact H].
  - assert (Hne : matchesOf em ph s <> []) by (rewrite Hm; discriminate).
    destruct (primariesOf (implicated em ph s)) as [|tp stale] eqn:Hp.
    + now rewrite (runAlone_corrupt em ph s Hne Hp).
    + rewrite (runAlone_merge em ph s tp stale Hne Hp). cbn [snd].
      destruct (truePrimary_survives em ph s tp stale Hu Hp)
        as [tp' [_ [Ht1 [Ht2 [Ht3 Ht4]]]]].
      assert (Htp' : exists q,
                In q (contacts (ingest tp em ph (demoteStale tp stale s)))
                /\ Some (id tp) = Some (id q)
                /\ linkPrecedence q = primary /\ deletedAt q = None).
      { exists tp'. split; [apply ingest_contacts; now left|].
        split; [congruence|]. now split. }
      intros c' Hc' Hd Hlc.
      apply ingest_contacts in Hc'. destruct Hc' as [Hc'|[_ ->]];
        [|exact Htp'].
      apply merged_contacts in Hc'. destruct Hc' as [c [Hc ->]].
      destruct (mergedRow_cases (clock s) (id tp) (map id stale) c)
        as [[_ E]|[[_ [_ [_ E]]]|[Hn0 [Hno E]]]]; rewrite E in *;
        [exact Htp'|exact Htp'|].
      destruct (Hsound c Hc Hd Hlc) as [q [Hq [Hk [Hql Hqd]]]].
      exists (mergedRow (clock s) (id tp) (map id stale) q).
      destruct (mergedRow_kept (clock s) (id tp) (map id stale) q)
        as [Hi [_ [_ [Hdel _]]]].
      split. { apply ingest_contacts. left. apply merged_contacts. now exists q. }
      split; [congruence|]. split; [|congruence].
      destruct (mergedRow_cases (clock s) (id tp) (map id stale) q)
        as [[Hin _]|[[_ [_ [_ ->]]]|[_ [_ ->]]]]; [|exact Hql|exact Hql].
      exfalso. apply Hno. split; [|exact Hd]. now exists (id q).
Qed.

Lemma soundLinks_preserved_witness :
  soundLinks (snd (runAlone (mkRequest (Some "a@x.com"%string) (Some "111"%string))
                     busyStore)).
Proof.
  destruct busyStore_wellFormed as [Hw Hs].
  exact (soundLinks_preserved (Some "a@x.com"%string) (Some "111"%string)
           busyStore Hw Hs).
Defined.

(** X12: a call on its own keeps the table well-formed (unique
    identifiers, identifiers and links below the sequence, primaries
    without link); the empty table is well-formed. *)
Theorem identify_keeps_wellFormed (em ph : option string) (s : Store) :
  wellFormed s ->
  wellFormed (snd (runAlone (mkRequest em ph) s))
  /\ wellFormed (mkStore [] (nextId s) (clock s)).
Proof.
  intros Hw. split; [now apply wellFormed_preserved|apply wellFormed_empty].
Qed.

Lemma identify_keeps_wellFormed_witness :
  wellFormed (snd (runAlone (mkRequest (Some "a@x.com"%string) (Some "111"%string))
                     busyStore)).
Proof.
  destruct busyStore_wellFormed as [Hw _].
  exact (proj1 (identify_keeps_wellFormed (Some "a@x.com"%string)
                  (Some "111"%string) busyStore Hw)).
Defined.

(** *** Writes and transactions, under any interleaving *)

Lemma mergeAndRespond_writes (directMatches : list ContactRecord)
    (em ph : option string) :
  emits writesInTransaction (mergeAndRespond directMatches em ph).
Proof.
  assert (Hfind : forall ids tx, emits writesInTransaction (findContactCluster ids tx)).
  { intros ids tx. apply emits_statement. intros a. exact I. }
  unfold mergeAndRespond.
  apply emits_bind; [apply Hfind|]. intros cluster.
  apply emits_bind.
  - apply emits_transaction.
    apply emits_bind.
    + destruct (0 <? _)%nat; [|apply emits_ret].
      apply emits_bind; [apply emits_deref|]. intros tp.
      apply emits_bind.
      * unfold demotePrimaryToSecondary.
        apply emits_bind; [apply emits_statement; reflexivity|].
        intros _. apply emits_ret.
      * intros _. apply emits_forEach. intros x.
        unfold relinkSecondaries.
        apply emits_bind; [apply emits_statement; reflexivity|].
        intros _. apply emits_ret.
    + intros _. apply emits_bind; [apply emits_deref|]. intros tp.
      apply emits_bind; [apply Hfind|]. intros fresh.
      destruct (_ || _); [|apply emits_ret].
      apply emits_bind; [|intros _; apply emits_ret].
      apply emits_statement. reflexivity.
  - intros _. apply emits_bind; [apply emits_deref|]. intros tp.
    apply emits_bind; [apply Hfind|]. intros final.
    apply emits_bind; [apply emits_deref|]. intros fp. apply emits_ret.
Qed.

(** X13: whatever other requests do, every [updateMany] and every creation
    of a secondary that [identifyContact] sends is sent on the transaction
    client. *)
Theorem writes_run_in_transaction (payload : IdentifyRequest) (w : World) :
  exists tr,
    trace (snd (identifyContact payload w)) = trace w ++ tr
    /\ Forall writesInTransaction tr.
Proof.
  revert w. change (emits writesInTransaction (identifyContact payload)).
  assert (Hlookup : forall tx,
            emits writesInTransaction
              (findContactsByEmailOrPhone (reqEmail payload)
                 (reqPhoneNumber payload) tx)).
  { intros tx. unfold findContactsByEmailOrPhone.
    destruct (_ =? _)%nat; [apply emits_ret|].
    apply emits_statement. intros a. exact I. }
  assert (Hcreate : forall tx,
            emits writesInTransaction
              (createPrimaryContact (reqEmail payload) (reqPhoneNumber payload) tx)).
  { intros tx. apply emits_statement. intros a. exact I. }
  unfold identifyContact.
  apply emits_bind; [apply Hlookup|]. intros directMatches.
  destruct (_ =? _)%nat; [|apply mergeAndRespond_writes].
  apply emits_bind.
  - apply emits_transaction.
    apply emits_bind; [apply Hlookup|]. intros recheck.
    destruct (_ =? _)%nat; [|apply emits_ret].
    apply emits_bind; [apply Hcreate|]. intros c. apply emits_ret.
  - intros [c|]; [apply emits_ret|].
    apply emits_bind; [apply Hlookup|]. intros fallbackMatches.
    destruct (_ =? _)%nat; [|apply mergeAndRespond_writes].
    apply emits_bind; [apply Hcreate|]. intros c. apply emits_ret.
Qed.

(** *** The boundary *)

Lemma parsePhoneNumber_nonempty (f : Field) (p : string) :
  parsePhoneNumber f = Some (Some p) -> f = Str p /\ p <> EmptyString.
Proof.
  destruct f as [|s|]; cbn [parsePhoneNumber]; try discriminate.
  destruct (1 <=? String.length s)%nat eqn:E; [|discriminate].
  intros H. injection H as <-. split; [reflexivity|].
  intros Hs. rewrite Hs in E. discriminate E.
Qed.

Lemma parseEmail_format (isEmail : string -> bool) (f : Field) (e : string) :
  parseEmail isEmail f = Some (Some e) -> f = Str e /\ isEmail e = true.
Proof.
  destruct f as [|s|]; simpl; try discriminate.
  destruct (isEmail s) eqn:E; [|discriminate].
  intros H. injection H as <-. now split.
Qed.

(** X14: data accepted by [identifySchema] come from an object body, carry
    at least one field, an email that passes the format test and a phone
    number that is not empty, each exactly as the body gave it; when the
    format test refuses the empty string, one of the two fields is set in
    the sense of the core. *)
Theorem accepted_payload_is_usable (isEmail : string -> bool) (b : Body)
    (data : IdentifyRequest) :
  isEmail EmptyString = false ->
  identifySchema isEmail b = Some data ->
  (exists ef pf, b = Obj ef pf
     /\ (forall e, reqEmail data = Some e -> ef = Str e /\ isEmail e = true)
     /\ (reqEmail data = None -> ef = Absent)
     /\ (forall p, reqPhoneNumber data = Some p -> pf = Str p /\ p <> EmptyString)
     /\ (reqPhoneNumber data = None -> pf = Absent))
  /\ truthy (reqEmail data) || truthy (reqPhoneNumber data) = true.
Proof.
  intros Hempty Hacc. destruct b as [|ef pf]; [discriminate|].
  unfold identifySchema in Hacc.
  destruct (parseEmail isEmail ef) as [em|] eqn:He; [|discriminate].
  destruct (parsePhoneNumber pf) as [ph|] eqn:Hp; [|discriminate].
  destruct (isSome em || isSome ph) eqn:Hs; [|discriminate].
  injection Hacc as <-. cbn [reqEmail reqPhoneNumber]. split.
  - exists ef, pf. split; [reflexivity|]. split; [|split; [|split]].
    + intros e ->. now apply parseEmail_format.
    + intros ->. destruct ef as [|s|]; simpl in He; try discriminate; [reflexivity|].
      destruct (isEmail s); discriminate.
    + intros p ->. now apply parsePhoneNumber_nonempty.
    + intros ->. destruct pf as [|s|]; cbn [parsePhoneNumber] in Hp;
        try discriminate; [reflexivity|].
      destruct (1 <=? String.length s)%nat; discriminate.
  - destruct em as [e|], ph as [p|]; try discriminate.
    + apply parsePhoneNumber_nonempty in Hp. destruct Hp as [_ Hp].
      apply truthy_Some in Hp. rewrite Hp. apply orb_true_r.
    + apply parseEmail_format in He. destruct He as [_ He].
      assert (Hne : e <> EmptyString) by (intros ->; congruence).
      apply truthy_Some in Hne. now rewrite Hne.
    + apply parsePhoneNumber_nonempty in Hp. destruct Hp as [_ Hp].
      apply truthy_Some in Hp. rewrite Hp. apply orb_true_r.
Qed.

Lemma accepted_payload_is_usable_witness :
  truthy (reqEmail (mkRequest None (Some "123456"%string)))
  || truthy (reqPhoneNumber (mkRequest None (Some "123456"%string))) = true.
Proof.
  apply (accepted_payload_is_usable
           (fun s => negb (s =? EmptyString)%string)
           (Obj Absent (Str "123456"%string))
           (mkRequest None (Some "123456"%string)));
    reflexivity.
Defined.

(** X15: a body that is not an object, that has neither field, that has a
    field which is not a string, or whose phone number is the empty string
    is answered with status 400 at the boundary: the core is not called,
    no statement is sent and the world is left as it was. *)
Theorem invalid_body_stops_at_boundary (isEmail : string -> bool)
    (nodeEnv : option string) (engineMessage : string) (b : Body) (w : World) :
  b = NotObject
  \/ b = Obj Absent Absent
  \/ (exists f, b = Obj NotString f)
  \/ (exists f, b = Obj f NotString)
  \/ (exists f, b = Obj f (Str EmptyString)) ->
  postIdentify isEmail nodeEnv engineMessage b w
  = (mkHttp 400 BodyValidationFailed, w).
Proof.
  intros H.
  assert (E : identifySchema isEmail b = None).
  { destruct H as [->|[->|[[f ->]|[[f ->]|[f ->]]]]]; try reflexivity.
    - unfold identifySchema. cbn [parsePhoneNumber].
      now destruct (parseEmail isEmail f).
    - unfold identifySchema. cbn.
      now destruct (parseEmail isEmail f). }
  unfold postIdentify, validateIdentify. now rewrite E.
Qed.

Lemma invalid_body_stops_at_boundary_witness :
  postIdentify (fun _ => true) (Some "production"%string) "boom"%string
    (Obj Absent Absent) racingWorld
  = (mkHttp 400 BodyValidationFailed, racingWorld).
Proof.
  apply invalid_body_stops_at_boundary. right. now left.
Defined.

(** X16: the route answers with status 200, 400 or 500, whatever the body,
    the table and the other requests.  Status 200 carries the result of
    [identifyContact] and nothing else does; status 400 leaves the world
    untouched; and in production a status 500 carries the fixed text, never
    the message of the exception. *)
Theorem route_outcomes (isEmail : string -> bool) (nodeEnv : option string)
    (engineMessage : string) (b : Body) (w : World) :
  (status (fst (postIdentify isEmail nodeEnv engineMessage b w)) = 200
   /\ exists payload result,
        identifySchema isEmail b = Some payload
        /\ identifyContact payload w
           = (Return result, snd (postIdentify isEmail nodeEnv engineMessage b w))
        /\ body (fst (postIdentify isEmail nodeEnv engineMessage b w))
           = BodyIdentify result)
  \/ (postIdentify isEmail nodeEnv engineMessage b w
      = (mkHttp 400 BodyValidationFailed, w)
      /\ identifySchema isEmail b = None)
  \/ (status (fst (postIdentify isEmail nodeEnv engineMessage b w)) = 500
      /\ (exists payload e,
            identifySchema isEmail b = Some payload
            /\ identifyContact payload w
               = (Throw e, snd (postIdentify isEmail nodeEnv engineMessage b w)))
      /\ body (fst (postIdentify isEmail nodeEnv engineMessage b w))
         = BodyError (if optStrEqb nodeEnv "production"
                      then internalServerError else engineMessage)).
Proof.
  unfold postIdentify, validateIdentify, identifyController.
  destruct (identifySchema isEmail b) as [payload|] eqn:E.
  - destruct (identifyContact payload w) as [[result|e] w'] eqn:R.
    + left. cbn. split; [reflexivity|]. exists payload, result. auto.
    + right. right. destruct e. cbn [fst snd thrown errorHandler statusCode status body errMessage].
      split; [reflexivity|]. split; [exists payload, TypeError; auto|].
      cbn. now rewrite andb_true_r.
  - right. left. auto.
Qed.

(** X17: [errorHandler] answers with the error's [statusCode], or 500
    when it has none.  An error made by [createError] with another status
    than 500 keeps its message in every environment; with status 500 its
    message is replaced by the fixed text in production and kept
    elsewhere. *)
Theorem errorHandler_statuses (nodeEnv : option string) (err : AppError)
    (message : string) (code : Z) :
  status (errorHandler nodeEnv err)
  = match statusCode err with Some c => c | None => 500 end
  /\ status (errorHandler nodeEnv (createError message code)) = code
  /\ (code <> 500 ->
      body (errorHandler nodeEnv (createError message code)) = BodyError message)
  /\ body (errorHandler (Some "production"%string) (createError message 500))
     = BodyError internalServerError
  /\ (nodeEnv <> Some "production"%string ->
      body (errorHandler nodeEnv (createError message 500)) = BodyError message).
Proof.
  split; [reflexivity|]. split; [reflexivity|]. split; [|split; [reflexivity|]].
  - intros Hc. unfold errorHandler, createError. cbn.
    apply Z.eqb_neq in Hc. rewrite Hc. now rewrite andb_false_r.
  - intros He. unfold errorHandler, createError. cbn.
    destruct (optStrEqb nodeEnv "production") eqn:E; [|reflexivity].
    apply optStrEqb_true in E. contradiction.
Qed.

Lemma errorHandler_statuses_witness :
  body (errorHandler (Some "production"%string)
          (createError "Not allowed"%string 403))
  = BodyError "Not allowed"%string.
Proof.
  apply (errorHandler_statuses (Some "production"%string)
           (createError "Not allowed"%string 403) "Not allowed"%string 403).
  discriminate.
Defined.

(** *** Calls that cannot fail, calls that change nothing *)

Lemma sound_match_has_primary (em ph : option string) (s : Store) :
  soundLinks s -> matchesOf em ph s <> [] ->
  exists tp stale, primariesOf (implicated em ph s) = tp :: stale.
Proof.
  intros Hsound Hne.
  destruct (matchesOf em ph s) as [|m ms] eqn:Hm; [congruence|].
  assert (Hmin : In m (matchesOf em ph s)) by (rewrite Hm; now left).
  pose proof Hmin as Hmrow. apply matchesOf_In in Hmrow.
  destruct Hmrow as [Hmc [Hmd _]].
  assert (Hprim : exists q, In q (primariesOf (implicated em ph s))).
  { destruct (linkPrecedence m) eqn:Hl.
    - exists m. apply primariesOf_In. split; [|exact Hl].
      unfold implicated. apply clusterOf_In. split; [exact Hmc|].
      split; [exact Hmd|]. left. apply getRootPrimaryIds_In.
      exists m. split; [exact Hmin|]. unfold rootOf. now rewrite Hl.
    - destruct (Hsound m Hmc Hmd Hl) as [q [Hq [Hk [Hql Hqd]]]].
      exists q. apply primariesOf_In. split; [|exact Hql].
      unfold implicated. apply clusterOf_In. split; [exact Hq|].
      split; [exact Hqd|]. left. apply getRootPrimaryIds_In.
      exists m. split; [exact Hmin|]. unfold rootOf. now rewrite Hl. }
  destruct (primariesOf (implicated em ph s)) as [|tp stale] eqn:Hp.
  - destruct Hprim as [q []].
  - now exists tp, stale.
Qed.

(** X18: on a table whose live secondaries point at live primaries, every
    call that finds a match finds a primary among the implicated rows, so
    [truePrimary] is never undefined and the outcome of a call on its own
    is never the [TypeError] of reading a property of [undefined].  (A
    failure of the store itself is not part of this statement.) *)
Theorem sound_table_has_true_primary (em ph : option string) (s : Store) :
  soundLinks s ->
  (matchesOf em ph s <> [] ->
   exists tp stale, primariesOf (implicated em ph s) = tp :: stale)
  /\ fst (runAlone (mkRequest em ph) s) <> Throw TypeError.
Proof.
  intros Hsound. split; [now apply sound_match_has_primary|].
  destruct (matchesOf em ph s) as [|m ms] eqn:Hm.
  - rewrite (runAlone_no_match em ph s Hm). discriminate.
  - assert (Hne : matchesOf em ph s <> []) by (rewrite Hm; discriminate).
    destruct (sound_match_has_primary em ph s Hsound Hne) as [tp [stale Hp]].
    rewrite (runAlone_merge em ph s tp stale Hne Hp).
    destruct (primaries_facts em ph s tp stale Hp tp (or_introl eq_refl))
      as [_ [Hin [Hd _]]].
    destruct (mergedRow_kept (clock s) (id tp) (map id stale) tp)
      as [Hi [_ [_ [Hdel _]]]].
    destruct (respond_returns tp (ingest tp em ph (demoteStale tp stale s))
                (mergedRow (clock s) (id tp) (map id stale) tp)) as [r Hr].
    + apply ingest_contacts. left. apply merged_contacts. now exists tp.
    + exact Hi.
    + congruence.
    + cbn [fst]. rewrite Hr. discriminate.
Qed.

Lemma sound_table_has_true_primary_witness :
  fst (runAlone (mkRequest (Some "nobody@x.com"%string) (Some "222"%string))
         busyStore)
  <> Throw TypeError.
Proof.
  destruct busyStore_wellFormed as [_ Hs].
  exact (proj2 (sound_table_has_true_primary (Some "nobody@x.com"%string)
                  (Some "222"%string) busyStore Hs)).
Defined.

(** X19: when the implicated clusters have a single primary, a call on its
    own modifies no row: the table keeps its rows as they are and gains at
    most the new secondary; and when every submitted value that is set is
    already carried by a row of that primary's cluster, the table is left
    exactly as it was and the response is the one built from that
    cluster. *)
Theorem single_primary_call_is_additive (em ph : option string) (s : Store)
    (tp : ContactRecord) :
  primariesOf (implicated em ph s) = [tp] ->
  (contacts (snd (runAlone (mkRequest em ph) s)) = contacts s
   \/ contacts (snd (runAlone (mkRequest em ph) s))
      = contacts s
        ++ [mkContact (nextId s) ph em (Some (id tp)) secondary
              (clock s) (clock s) None])
  /\ ((forall e, em = Some e -> e <> EmptyString ->
         hasValue email e (clusterOf [id tp] s)) ->
      (forall p, ph = Some p -> p <> EmptyString ->
         hasValue phoneNumber p (clusterOf [id tp] s)) ->
      runAlone (mkRequest em ph) s = (respond tp s, s)).
Proof.
  intros Hp.
  pose proof (primaries_nonempty_matches em ph s tp [] Hp) as Hne.
  rewrite (runAlone_merge em ph s tp [] Hne Hp).
  change (demoteStale tp [] s) with s. cbn [snd]. split.
  - unfold ingest. destruct (addsInformation tp em ph s); [right|now left].
    reflexivity.
  - intros He Hph. unfold ingest.
    now rewrite (addsInformation_false tp em ph s He Hph).
Qed.

Lemma single_primary_call_is_additive_witness :
  runAlone (mkRequest (Some "z@x.com"%string) (Some "999"%string)) busyStore
  = (respond rowOther busyStore, busyStore).
Proof.
  destruct (single_primary_call_is_additive
              (Some "z@x.com"%string) (Some "999"%string) busyStore rowOther
              eq_refl) as [_ H].
  apply H.
  - intros e E _. injection E as <-. exists rowOther. split; [|reflexivity].
    vm_compute. tauto.
  - intros p E _. injection E as <-. exists rowOther. split; [|reflexivity].
    vm_compute. tauto.
Defined.
